(** * FFT music visualiser: the sample buffer, hop loop and Bluestein set-up

    A shallow embedding of [hachingRewrite.c] (decode, left-channel
    extraction, hop loop over FFTW, flat magnitude array) and of
    [hachingRewriteNoLibrary.c] (hand-written complex arithmetic and the
    set-up half of [bluesteinFFT]).

    Conventions
    - [int] is a 32-bit two's-complement value held in [Z]; arithmetic on it
      goes through [C.int_wrap].  [size_t] is a 64-bit unsigned value held in
      [Z]; arithmetic on it goes through [C.size_wrap].
    - A heap block is a [list (option A)]: one cell per element, [None] for a
      cell that has never been written.  Reading outside the block, or
      reading a [None] cell, is [Fault]; so is writing outside the block.
    - [double] is an abstract carrier with the operations of [DoubleOps];
      two instances are given, exact real arithmetic and correctly rounded
      binary64/binary32 arithmetic on rationals. *)

From Stdlib Require Import ZArith List Lia Bool String QArith Reals.
From stdpp Require Import base tactics option list.

Local Open Scope Z_scope.

(* ================================================================== *)
(** * Part I: definitions                                              *)
(* ================================================================== *)

(** ** Machine integers *)

Module C.

Definition INT_MAX : Z := 2147483647.
Definition INT_MIN : Z := -2147483648.
Definition SIZE_MAX : Z := 18446744073709551615.

(** Reduction of a mathematical integer to [int] and to [size_t]. *)
Definition int_wrap (z : Z) : Z := (z + 2147483648) mod 4294967296 - 2147483648.
Definition size_wrap (z : Z) : Z := z mod 18446744073709551616.

Definition int_add (a b : Z) : Z := int_wrap (a + b).
Definition int_sub (a b : Z) : Z := int_wrap (a - b).
Definition int_mul (a b : Z) : Z := int_wrap (a * b).
Definition size_add (a b : Z) : Z := size_wrap (a + b).
Definition size_sub (a b : Z) : Z := size_wrap (a - b).
Definition size_mul (a b : Z) : Z := size_wrap (a * b).

(** The usual arithmetic conversions: an [int] compared or combined with a
    [size_t] is first converted to [size_t]. *)
Definition size_of_int (i : Z) : Z := size_wrap i.
Definition int_of_size (s : Z) : Z := int_wrap s.

Definition sizeof_short : Z := 2.
Definition sizeof_double : Z := 8.
Definition sizeof_Complex : Z := 16.

End C.

(** ** Outcomes of a run *)

Inductive result (A : Type) : Type :=
| Ok (a : A)
| Fault
| OutOfFuel.
Arguments Ok {A} a.
Arguments Fault {A}.
Arguments OutOfFuel {A}.

#[global] Instance result_ret : MRet result := fun A a => Ok a.
#[global] Instance result_bind : MBind result := fun A B f r =>
  match r with
  | Ok a => f a
  | Fault => Fault
  | OutOfFuel => OutOfFuel
  end.

(** ** Heap blocks *)

Definition malloc (A : Type) (bytes elsize : Z) : list (option A) :=
  replicate (Z.to_nat (bytes / elsize)) None.

Definition load {A : Type} (a : list (option A)) (i : Z) : result A :=
  if 0 <=? i then
    match a !! Z.to_nat i with
    | Some (Some v) => Ok v
    | _ => Fault
    end
  else Fault.

Definition store {A : Type} (a : list (option A)) (i : Z) (v : A)
  : result (list (option A)) :=
  if (0 <=? i) && (i <? Z.of_nat (length a))
  then Ok (<[Z.to_nat i := Some v]> a)
  else Fault.

(** [for (i = start; cond(i); i = step(i)) body], for the loops whose
    condition mixes an [int] counter with a [size_t] bound or whose step
    can leave the [int] range.  The loop gives up after [fuel] tests of the
    condition. *)
Fixpoint c_for {St : Type} (fuel : nat) (cond : Z → bool) (step : Z → Z)
    (body : Z → St → result St) (i : Z) (s : St) : result St :=
  match fuel with
  | O => OutOfFuel
  | S fuel' =>
      if cond i then s' ← body i s; c_for fuel' cond step body (step i) s'
      else Ok s
  end.

(** [for (j = start; j < bound; j++) body] where counter and bound have the
    same type, so that [j++] stays in range: [n] iterations from [j]. *)
Fixpoint for_loop {St : Type} (n : nat) (j : Z) (body : Z → St → result St) (s : St)
  : result St :=
  match n with
  | O => Ok s
  | S n' => s' ← body j s; for_loop n' (j + 1) body s'
  end.

Definition for_int {St : Type} (start bound : Z) (body : Z → St → result St) (s : St)
  : result St :=
  for_loop (Z.to_nat (bound - start)) start body s.

(** ** Floating-point interface *)

Class DoubleOps (D : Type) : Type := {
  d_of_Z : Z → D;          (* conversion of an integer value to double *)
  dadd : D → D → D;
  dsub : D → D → D;
  dmul : D → D → D;
  ddiv : D → D → D;
  dneg : D → D;
  dsqrt : D → D;
  dcos : D → D;
  dsin : D → D;
  to_float : D → D;        (* double -> float -> double *)
  PI : D;                  (* #define PI 3.1415926535 *)
}.

(** The facts about IEEE arithmetic and the C library's [cos] and [sin]
    that the conjugate half of the Bluestein set-up relies on: multiplying
    by 1 is exact, negation commutes with every rounded operation, [cos] is
    even and [sin] is odd. *)
Class DoubleLaws (D : Type) `{DoubleOps D} : Prop := {
  dmul_one_l : ∀ a, dmul (to_float (d_of_Z 1)) a = a;
  dmul_neg_l : ∀ a b, dmul (dneg a) b = dneg (dmul a b);
  ddiv_neg_l : ∀ a b, ddiv (dneg a) b = dneg (ddiv a b);
  to_float_neg : ∀ a, to_float (dneg a) = dneg (to_float a);
  dneg_involutive : ∀ a, dneg (dneg a) = a;
  dcos_neg : ∀ a, dcos (dneg a) = dcos a;
  dsin_neg : ∀ a, dsin (dneg a) = dneg (dsin a);
}.

(** ** [hachingRewrite.c]: the hop loop of [main] *)

Module Hop.
Section Defs.
Context {D : Type} `{DoubleOps D}.

(** [fftw_execute(plan)] for the plan [fftw_plan_dft_r2c_1d(hopsize, in,
    out, _)]: FFTW is an external library; [fftw_bin w j] stands for the
    complex value it leaves in [out[j]] for the window [w]. *)
Variable fftw_bin : list D → Z → D * D.

Record state : Type := {
  in_buf : list (option D);    (* double *in, hopsize cells *)
  freqArr : list (option D);   (* double *freqArr *)
  hops : list (Z * list D);    (* ghost: offset and window of every fftw_execute *)
  writes : list Z;             (* ghost: every index of freqArr written, in order *)
}.

(** [for (int j = 0; j < hopsize; j++) in[j] = leftChanelSamples[i + j];] *)
Definition copy_window (left : list (option D)) (i hopsize : Z)
    (inb : list (option D)) : result (list (option D)) :=
  for_int 0 hopsize
    (fun j inb => v ← load left (C.int_add i j); store inb j v) inb.

(** The contents of a fully initialised block. *)
Fixpoint contents (a : list (option D)) : result (list D) :=
  match a with
  | [] => Ok []
  | Some v :: a' => w ← contents a'; Ok (v :: w)
  | None :: _ => Fault
  end.

(** [fftw_execute(plan)]: reads all of [in], fills the [hopsize / 2 + 1]
    cells of [out]. *)
Definition fftw_execute (inb : list (option D)) (hopsize : Z)
  : result (list D * list (option (D * D))) :=
  w ← contents inb;
  Ok (w, (fun j => Some (fftw_bin w (Z.of_nat j)))
           <$> seq 0 (Z.to_nat (Z.quot hopsize 2 + 1))).

(** [sqrt(out[j][0] * out[j][0] + out[j][1] * out[j][1])] *)
Definition magnitude (c : D * D) : D :=
  dsqrt (dadd (dmul (fst c) (fst c)) (dmul (snd c) (snd c))).

(** [for (int j = 0; j < hopsize / 2 + 1; j++) freqArr[i + j] = sqrt(...);] *)
Definition write_magnitudes (out : list (option (D * D))) (i hopsize : Z)
    (fw : list (option D) * list Z) : result (list (option D) * list Z) :=
  for_int 0 (Z.quot hopsize 2 + 1)
    (fun j fw =>
       c ← load out j;
       f ← store (fst fw) (C.int_add i j) (magnitude c);
       Ok (f, snd fw ++ [C.int_add i j])) fw.

(** One iteration of the hop loop at offset [i]. *)
Definition hop_body (left : list (option D)) (hopsize i : Z) (st : state)
  : result state :=
  inb ← copy_window left i hopsize (in_buf st);
  wo ← fftw_execute inb hopsize;
  fw ← write_magnitudes (snd wo) i hopsize (freqArr st, writes st);
  Ok {| in_buf := inb; freqArr := fst fw;
        hops := hops st ++ [(i, fst wo)]; writes := snd fw |}.

(** [for (int i = 0; i + hopsize <= audio_data.num_samples / 2; i += hopsize)].
    [half] is the [size_t] value [audio_data.num_samples / 2]; the [int]
    sum [i + hopsize] is converted to [size_t] for the comparison. *)
Definition hop_loop (fuel : nat) (left : list (option D)) (hopsize half : Z)
    (st : state) : result state :=
  c_for fuel
    (fun i => C.size_of_int (C.int_add i hopsize) <=? half)
    (fun i => C.int_add i hopsize)
    (hop_body left hopsize) 0 st.

End Defs.
End Hop.

(** ** [hachingRewrite.c]: decoding into a growable sample buffer *)

(** What is printed, and where. *)
Inductive out_line : Type :=
| Usage
| SampleRate (rate : Z)
| Channels (channels : Z)
| Extracted (num_samples : Z)
| Duration (num_samples channels rate : Z)
| Elapsed.

Inductive event : Type :=
| Stdout (l : out_line)
| Stderr (msg : string).

(** The environment of a run: which requests the allocator, FFTW's planner
    and the clock grant. *)
Record Env : Type := {
  malloc_ok : Z → bool;     (* a request of that many bytes succeeds *)
  plan_ok : bool;           (* fftw_plan_dft_r2c_1d returns a plan *)
  clock_start_ok : bool;    (* first clock_gettime returns 0 *)
  clock_end_ok : bool;      (* second clock_gettime returns 0 *)
}.

(** The mpg123 session on the given file, as far as the program observes
    it.  [reads] holds, for every [mpg123_read] that returned [MPG123_OK],
    the [done / sizeof(short)] samples it delivered. *)
Record Decoder : Type := {
  init_ok : bool;
  new_ok : bool;
  open_ok : bool;
  getformat_ok : bool;
  rate : Z;
  dec_channels : Z;
  outblock : Z;
  reads : list (list Z);
}.

Record AudioData : Type := {
  samples : list (option Z);
  num_samples : Z;
  sample_rate : Z;
  channels : Z;
}.

Module Pcm.

(** The three variables the read loop maintains. *)
Record builder : Type := {
  cells : list (option Z);   (* audio_data->samples *)
  total_samples : Z;
  capacity : Z;
}.

(** [realloc(p, bytes)]: the old contents up to the smaller of the two
    sizes, new cells indeterminate. *)
Definition realloc {A : Type} (a : list (option A)) (bytes elsize : Z)
  : list (option A) :=
  let n := Z.to_nat (bytes / elsize) in
  take n a ++ replicate (n - length a)%nat None.

(** [if (total_samples + samples_in_buffer > capacity) { capacity *= 2; ... }] *)
Definition must_grow (b : builder) (samples_in_buffer : Z) : bool :=
  C.size_add (total_samples b) samples_in_buffer >? capacity b.

Definition grown_capacity (b : builder) (samples_in_buffer : Z) : Z :=
  if must_grow b samples_in_buffer then C.size_mul (capacity b) 2 else capacity b.

(** [for (size_t i = 0; i < samples_in_buffer; i++)
      audio_data->samples[total_samples + i] = samples[i];] *)
Definition copy_block (block : list Z) (total : Z) (c : list (option Z))
  : result (list (option Z)) :=
  for_int 0 (Z.of_nat (length block))
    (fun i c =>
       match block !! Z.to_nat i with
       | Some v => store c (C.size_add total i) v
       | None => Fault
       end) c.

(** One turn of the [while (mpg123_read(...) == MPG123_OK)] loop.  The
    inner [None] is the [return -1] taken when [realloc] fails. *)
Definition append (env : Env) (b : builder) (block : list Z)
  : result (option builder) :=
  let samples_in_buffer := Z.of_nat (length block) in
  let cap := grown_capacity b samples_in_buffer in
  let bytes := C.size_mul cap C.sizeof_short in
  if must_grow b samples_in_buffer && negb (malloc_ok env bytes) then Ok None
  else
    let c0 := if must_grow b samples_in_buffer
              then realloc (cells b) bytes C.sizeof_short
              else cells b in
    c ← copy_block block (total_samples b) c0;
    Ok (Some {| cells := c;
                total_samples := C.size_add (total_samples b) samples_in_buffer;
                capacity := cap |}).

Fixpoint read_loop (env : Env) (blocks : list (list Z)) (b : builder)
  : result (option builder) :=
  match blocks with
  | [] => Ok (Some b)
  | block :: rest =>
      r ← append env b block;
      match r with
      | Some b' => read_loop env rest b'
      | None => Ok None
      end
  end.

(** [size_t capacity = rate * channels * 2;] followed by the first
    [malloc]. *)
Definition initial_capacity (rate channels : Z) : Z :=
  C.size_wrap (rate * channels * 2).

Definition init (cap : Z) : builder :=
  {| cells := malloc Z (C.size_mul cap C.sizeof_short) C.sizeof_short;
     total_samples := 0;
     capacity := cap |}.

(** [extract_mp3_samples]: the events it emits and, when it returns 0,
    the [AudioData] it has filled in ([None] when it returns -1). *)
Definition extract_mp3_samples (env : Env) (dec : Decoder)
  : result (list event * option AudioData) :=
  if negb (init_ok dec) then
    Ok ([Stderr "Failed to initialize mpg123"], None)
  else if negb (new_ok dec) then
    Ok ([Stderr "Unable to create mpg123 handle"], None)
  else if negb (open_ok dec) then
    Ok ([Stderr "Unable to open file"], None)
  else if negb (getformat_ok dec) then
    Ok ([Stderr "Unable to get format information"], None)
  else if negb (malloc_ok env (outblock dec)) then
    Ok ([Stderr "Unable to allocate buffer"], None)
  else
    let printed := [Stdout (SampleRate (rate dec)); Stdout (Channels (dec_channels dec))] in
    let cap := initial_capacity (rate dec) (dec_channels dec) in
    if negb (malloc_ok env (C.size_mul cap C.sizeof_short)) then
      Ok (printed ++ [Stderr "Unable to allocate sample buffer"], None)
    else
      r ← read_loop env (reads dec) (init cap);
      match r with
      | None => Ok (printed ++ [Stderr "Unable to reallocate sample buffer"], None)
      | Some b =>
          Ok (printed,
              Some {| samples := cells b;
                      num_samples := total_samples b;
                      sample_rate := rate dec;
                      channels := dec_channels dec |})
      end.

End Pcm.

(** ** [hachingRewrite.c]: [main] *)

Module Main.
Section Defs.
Context {D : Type} `{DoubleOps D}.
Variable fftw_bin : list D → Z → D * D.

(** [for (int i = 0; i < audio_data.num_samples / 2; i++)
      leftChanelSamples[i] = audio_data.samples[i * 2];]
    The product [i * 2] is an [int] product. *)
Definition extract_left (fuel : nat) (audio : AudioData) (left : list (option D))
  : result (list (option D)) :=
  c_for fuel
    (fun i => C.size_of_int i <? num_samples audio / 2)
    (fun i => C.int_add i 1)
    (fun i left =>
       v ← load (samples audio) (C.int_mul i 2);
       store left i (d_of_Z v)) 0 left.

Definition EXIT_FAILURE : Z := 1.

(** What a run of [main] leaves behind: what it printed, its exit status
    and (ghost) the hops it transformed and the cells of [freqArr] it
    wrote. *)
Record run : Type := {
  trace : list event;
  status : Z;
  transformed : list (Z * list D);
  written : list Z;
}.

Definition stop (tr : list event) (code : Z) : result run :=
  Ok {| trace := tr; status := code; transformed := []; written := [] |}.

(** Everything after the argument check, for a given [hopsize].  The
    source obtains [freqArr] from a function it calls [alloc]; it is taken
    to be the allocator, like the [malloc] calls around it. *)
Definition analyse (env : Env) (dec : Decoder) (hopsize : Z) (fuel : nat)
  : result run :=
  r ← Pcm.extract_mp3_samples env dec;
  match snd r with
  | None => stop (fst r ++ [Stderr "Failed to extract samples"]) 1
  | Some audio =>
      let half := num_samples audio / 2 in
      let tr := fst r ++ [Stdout (Extracted (num_samples audio));
                          Stdout (Duration (num_samples audio) (channels audio)
                                           (sample_rate audio))] in
      if negb (malloc_ok env (C.size_mul half C.sizeof_double)) then
        stop (tr ++ [Stderr "Error: Failed to allocate memory for leftChannelSamples."])
             EXIT_FAILURE
      else
        (left ← extract_left fuel audio
                 (malloc D (C.size_mul half C.sizeof_double) C.sizeof_double);
        if negb (clock_start_ok env) then
          stop (tr ++ [Stderr "clock_gettime"]) EXIT_FAILURE
        else if negb (malloc_ok env (C.size_mul (C.size_of_int hopsize) C.sizeof_double)) then
          stop (tr ++ [Stderr "Error: Failed to allocate memory for in."]) EXIT_FAILURE
        else if negb (malloc_ok env (C.size_mul half C.sizeof_double)) then
          stop (tr ++ [Stderr "Error: Failed to allocate memory for freqArr."]) EXIT_FAILURE
        else if negb (malloc_ok env
                 (C.size_mul C.sizeof_Complex (C.size_of_int (Z.quot hopsize 2 + 1)))) then
          stop (tr ++ [Stderr "Error: Failed to allocate memory for out."]) EXIT_FAILURE
        else if negb (plan_ok env) then
          stop (tr ++ [Stderr "Error: FFTW plan creation failed"]) EXIT_FAILURE
        else
          (st ← Hop.hop_loop fftw_bin fuel left hopsize half
                 {| Hop.in_buf := malloc D (C.size_mul (C.size_of_int hopsize) C.sizeof_double)
                                    C.sizeof_double;
                    Hop.freqArr := malloc D (C.size_mul half C.sizeof_double) C.sizeof_double;
                    Hop.hops := [];
                    Hop.writes := [] |};
          if negb (clock_end_ok env) then
            Ok {| trace := tr ++ [Stderr "clock_gettime"]; status := EXIT_FAILURE;
                  transformed := Hop.hops st; written := Hop.writes st |}
          else
            Ok {| trace := tr ++ [Stdout Elapsed]; status := 0;
                  transformed := Hop.hops st; written := Hop.writes st |}))
  end.

(** [int hopsize = 159840;] *)
Definition hopsize : Z := 159840.

Definition main (env : Env) (argc : Z) (dec : Decoder) (fuel : nat)
  : result run :=
  if negb (argc =? 2) then stop [Stdout Usage] 1
  else analyse env dec hopsize fuel.

(** *** The words of the specification, for comparison *)

(** [pcm] is the decoded content of [audio]: its first [num_samples]
    cells, all initialised. *)
Definition holds (audio : AudioData) (pcm : list Z) : Prop :=
  num_samples audio = Z.of_nat (length pcm)
  ∧ take (length pcm) (samples audio) = Some <$> pcm.

(** Channel [c] of frames of [channels] interleaved samples: one sample
    per complete frame. *)
Definition channel (channels c : nat) (pcm : list Z) : list Z :=
  (fun i => default 0 (pcm !! (i * channels + c)%nat))
    <$> seq 0 (length pcm / channels)%nat.

End Defs.
End Main.

(** ** [hachingRewriteNoLibrary.c]: complex arithmetic and [bluesteinFFT] *)

Module Bluestein.
Section Defs.
Context {D : Type} `{DoubleOps D}.

Record Complex : Type := { re : D; im : D }.

Definition add (a b : Complex) : Complex :=
  {| re := dadd (re a) (re b); im := dadd (im a) (im b) |}.

Definition sub (a b : Complex) : Complex :=
  {| re := dsub (re a) (re b); im := dsub (im a) (im b) |}.

Definition mul (a b : Complex) : Complex :=
  {| re := dsub (dmul (re a) (re b)) (dmul (im a) (im b));
     im := dadd (dmul (re a) (im b)) (dmul (im a) (re b)) |}.

Definition getLength (a : Complex) : D :=
  dsqrt (dadd (dmul (re a) (re a)) (dmul (im a) (im a))).

(** [Complex fromAngle(float amplitude, float angle)]: both parameters
    hold [float] values; callers convert with [to_float]. *)
Definition fromAngle (amplitude angle : D) : Complex :=
  {| re := dmul amplitude (dcos angle); im := dmul amplitude (dsin angle) |}.

(** [pow(2, ceil(log2(n)))] as the double it denotes: NaN ([None]) for a
    negative [n], [0] for [n = 0] (log2 gives -inf), and the least power
    of two that is at least [n] otherwise; on the [int] range the library
    functions are exact at these arguments. *)
Definition nextPowerOfTwo (n : Z) : option Z :=
  if n <? 0 then None
  else if n =? 0 then Some 0
  else Some (2 ^ Z.log2_up n).

(** The literal [1] passed for the [float amplitude]. *)
Definition one_f : D := to_float (d_of_Z 1).

(** [float phase = (-PI * k * k) / bufflen;] *)
Definition phase_double (k bufflen : Z) : D :=
  ddiv (dmul (dmul (dneg PI) (d_of_Z k)) (d_of_Z k)) (d_of_Z bufflen).

Definition chirp_phase (k bufflen : Z) : D := to_float (phase_double k bufflen).

(** [(PI * k * k) / bufflen], converted for the [float angle] parameter. *)
Definition conj_phase (k bufflen : Z) : D :=
  to_float (ddiv (dmul (dmul PI (d_of_Z k)) (d_of_Z k)) (d_of_Z bufflen)).

Definition zero : Complex := {| re := d_of_Z 0; im := d_of_Z 0 |}.

(** [memset(p, 0, n * sizeof(Complex))] over a block of [n] elements. *)
Definition memset0 (a : list (option Complex)) : list (option Complex) :=
  (fun _ => Some zero) <$> a.

(** The local variables when control reaches the closing brace (the
    function ends there, without a [return]). *)
Record locals : Type := {
  result_ : list (option Complex);
  chirp : list (option Complex);
  m : Z;
  A : list (option Complex);
  B : list (option Complex);
}.

(** [for (int k = 0; k < bufflen; k++) chirp[k] = fromAngle(1, phase);] *)
Definition fill_chirp (fuel : nat) (bufflen : Z) (c : list (option Complex))
  : result (list (option Complex)) :=
  c_for fuel
    (fun k => C.size_of_int k <? bufflen)
    (fun k => C.int_add k 1)
    (fun k c => store c k (fromAngle one_f (chirp_phase k bufflen))) 0 c.

(** [int m = nextPowerOfTwo(bufflen * 2 - 1);] with the [size_t]
    argument converted to [int] and the [double] result converted back;
    a result that is NaN or exceeds [INT_MAX] has no defined conversion. *)
Definition compute_m (bufflen : Z) : result Z :=
  match nextPowerOfTwo (C.int_of_size (C.size_sub (C.size_mul bufflen 2) 1)) with
  | Some v => if v <=? C.INT_MAX then Ok v else Fault
  | None => Fault
  end.

(** [for (int k = 0; k < bufflen; k++) { A[k] = ...; B[k] = ...; }] *)
Definition fill_sequences (fuel : nat) (buff chirp : list (option Complex))
    (bufflen : Z) (ab : list (option Complex) * list (option Complex))
  : result (list (option Complex) * list (option Complex)) :=
  c_for fuel
    (fun k => C.size_of_int k <? bufflen)
    (fun k => C.int_add k 1)
    (fun k ab =>
       x ← load buff k;
       c ← load chirp k;
       a ← store (fst ab) k (mul x c);
       b ← store (snd ab) k (fromAngle one_f (conj_phase k bufflen));
       Ok (a, b)) 0 ab.

(** [for (int k = 1; k < bufflen; k++) B[m - k] = (Complex){B[k].re, -B[k].im};] *)
Definition mirror (fuel : nat) (bufflen m : Z) (b : list (option Complex))
  : result (list (option Complex)) :=
  c_for fuel
    (fun k => C.size_of_int k <? bufflen)
    (fun k => C.int_add k 1)
    (fun k b =>
       bk ← load b k;
       store b (C.int_sub m k) {| re := re bk; im := dneg (im bk) |}) 1 b.

(** The body of [bluesteinFFT].  The function does not test the results of
    its [malloc] calls; the model is of the runs in which they succeed. *)
Definition bluesteinFFT (fuel : nat) (buff : list (option Complex)) (bufflen : Z)
  : result locals :=
  let bytes := C.size_mul bufflen C.sizeof_Complex in
  let result0 := malloc Complex bytes C.sizeof_Complex in
  ch ← fill_chirp fuel bufflen (malloc Complex bytes C.sizeof_Complex);
  m ← compute_m bufflen;
  let mbytes := C.size_mul (C.size_of_int m) C.sizeof_Complex in
  let A0 := memset0 (malloc Complex mbytes C.sizeof_Complex) in
  let B0 := memset0 (malloc Complex mbytes C.sizeof_Complex) in
  ab ← fill_sequences fuel buff ch bufflen (A0, B0);
  b ← mirror fuel bufflen m (snd ab);
  Ok {| result_ := result0; chirp := ch; m := m; A := fst ab; B := b |}.

(** *** The words of the specification, for comparison *)

(** exp(i theta) *)
Definition cis (theta : D) : Complex := {| re := dcos theta; im := dsin theta |}.

Definition conj (c : Complex) : Complex := {| re := re c; im := dneg (im c) |}.

(** [m] is next_power_of_two([n]): the least power of two not below [n]. *)
Definition is_next_power_of_two (m n : Z) : Prop :=
  (∃ j, 0 <= j ∧ m = 2 ^ j) ∧ n <= m ∧ ∀ j, 0 <= j → n <= 2 ^ j → m <= 2 ^ j.

End Defs.
End Bluestein.

(** ** Two arithmetics *)

(** Exact real arithmetic: no rounding anywhere. *)
Module RealArith.

#[global] Instance real_ops : DoubleOps R := {|
  d_of_Z := IZR;
  dadd := Rplus;
  dsub := Rminus;
  dmul := Rmult;
  ddiv := Rdiv;
  dneg := Ropp;
  dsqrt := sqrt;
  dcos := cos;
  dsin := sin;
  to_float := fun x => x;
  PI := (31415926535 / 10000000000)%R;
|}.

End RealArith.

(** Correctly rounded binary arithmetic on rationals: every operation
    computes the exact rational and rounds it to nearest, ties to even, with
    a 53-bit significand ([double]) or a 24-bit one ([float]).  The exponent
    range is not modelled; it is used only on values far from overflow and
    underflow. *)
Module Ieee.

(** [n / d > 0] rounded to [p] significant bits. *)
Definition round_pos (p : Z) (n d : positive) : Q :=
  let e0 := Z.log2 (Zpos n) - Z.log2 (Zpos d) in
  let above := if 0 <=? e0 then Zpos d * 2 ^ e0 <=? Zpos n
               else Zpos d <=? Zpos n * 2 ^ (- e0) in
  let e := if above then e0 else e0 - 1 in
  let s := e - (p - 1) in
  let num := if 0 <=? s then Zpos n else Zpos n * 2 ^ (- s) in
  let den := if 0 <=? s then Zpos d * 2 ^ s else Zpos d in
  let q0 := num / den in
  let r := num mod den in
  let mant := if 2 * r <? den then q0
              else if den <? 2 * r then q0 + 1
              else if Z.even q0 then q0 else q0 + 1 in
  if 0 <=? s then Qmake (mant * 2 ^ s) 1
  else Qmake mant (Z.to_pos (2 ^ (- s))).

Definition round (p : Z) (q : Q) : Q :=
  match Qnum q with
  | Z0 => 0%Q
  | Zpos n => round_pos p n (Qden q)
  | Zneg n => Qopp (round_pos p n (Qden q))
  end.

Definition double (q : Q) : Q := round 53 q.
Definition single (q : Q) : Q := round 24 q.

(** The operations the C library supplies are parameters. *)
Definition ieee_ops (libm_sqrt libm_cos libm_sin : Q → Q) : DoubleOps Q := {|
  d_of_Z := fun z => double (inject_Z z);
  dadd := fun a b => double (a + b)%Q;
  dsub := fun a b => double (a - b)%Q;
  dmul := fun a b => double (a * b)%Q;
  ddiv := fun a b => double (a / b)%Q;
  dneg := Qopp;
  dsqrt := libm_sqrt;
  dcos := libm_cos;
  dsin := libm_sin;
  to_float := single;
  PI := double (31415926535 # 10000000000);
|}.

End Ieee.

(** ** The hop layout in closed form *)

Module Layout.
Section Defs.
Context {D : Type} `{DoubleOps D}.
Variable fftw_bin : list D → Z → D * D.

(** The samples at positions [[k * hopsize, k * hopsize + hopsize)]. *)
Definition window (mono : list D) (hopsize : Z) (k : nat) : list D :=
  take (Z.to_nat hopsize) (drop (Z.to_nat (Z.of_nat k * hopsize)) mono).

(** Offsets and windows of the first [n] hops. *)
Definition windows (mono : list D) (hopsize : Z) (n : nat) : list (Z * list D) :=
  (fun k => (Z.of_nat k * hopsize, window mono hopsize k)) <$> seq 0 n.

(** The indices [i, i + 1, ..., i + hopsize / 2]. *)
Definition bins_at (i hopsize : Z) : list Z :=
  (fun j => i + Z.of_nat j) <$> seq 0 (Z.to_nat (hopsize / 2 + 1)).

Definition bin_indices (hopsize : Z) (n : nat) : list Z :=
  mjoin ((fun k => bins_at (Z.of_nat k * hopsize) hopsize) <$> seq 0 n).

(** Cell [idx] of the flat array after [n] hops, starting from [freq0]. *)
Definition flat_cell (mono : list D) (hopsize : Z) (n : nat)
    (freq0 : list (option D)) (idx : Z) : option (option D) :=
  if (idx / hopsize <? Z.of_nat n) && (idx mod hopsize <=? hopsize / 2)
  then Some (Some (Hop.magnitude
                     (fftw_bin (window mono hopsize (Z.to_nat (idx / hopsize)))
                               (idx mod hopsize))))
  else freq0 !! Z.to_nat idx.

(** Number of iterations of the hop loop over [half] mono samples. *)
Definition hop_count (half hopsize : Z) : nat :=
  Z.to_nat (Z.min half C.INT_MAX / hopsize).

End Defs.
End Layout.

(** Some cell is written more than once. *)
Definition clobbered (ws : list Z) : Prop :=
  ∃ (a b : nat) (idx : Z), (a < b)%nat ∧ ws !! a = Some idx ∧ ws !! b = Some idx.

(** The builder [b] holds exactly the samples [pcm]: they are counted, they
    fit, and they occupy the first cells of the block in order. *)
Definition stores (b : Pcm.builder) (pcm : list Z) : Prop :=
  Pcm.total_samples b = Z.of_nat (length pcm)
  ∧ Pcm.total_samples b <= Pcm.capacity b
  ∧ length (Pcm.cells b) = Z.to_nat (Pcm.capacity b)
  ∧ take (length pcm) (Pcm.cells b) = Some <$> pcm.

(** An environment that grants every request. *)
Definition granting : Env :=
  {| malloc_ok := fun _ => true; plan_ok := true;
     clock_start_ok := true; clock_end_ok := true |}.

(** ** Small concrete runs *)

Module Sample.

(** A transform that leaves zeros in [out]. *)
Definition silent_fftw : list R → Z → R * R := fun _ _ => (0%R, 0%R).

Definition ten : list R := [1; 2; 3; 4; 5; 6; 7; 8; 9; 10]%R.
Definition eight : list R := [1; 2; 3; 4; 5; 6; 7; 8]%R.

(** The buffers [main] allocates for [half] mono samples. *)
Definition fresh (hopsize half : Z) : @Hop.state R :=
  {| Hop.in_buf := malloc R (C.size_mul (C.size_of_int hopsize) C.sizeof_double)
                     C.sizeof_double;
     Hop.freqArr := malloc R (C.size_mul half C.sizeof_double) C.sizeof_double;
     Hop.hops := [];
     Hop.writes := [] |}.

(** A toy two-channel recording of four samples, delivered in one read;
    the rate is kept small so that the initial block stays small. *)
Definition short_track : Decoder :=
  {| init_ok := true; new_ok := true; open_ok := true; getformat_ok := true;
     rate := 4; dec_channels := 2; outblock := 8;
     reads := [[1; 2; 3; 4]] |}.

Definition two_points : list (@Bluestein.Complex R) :=
  [ {| Bluestein.re := 1%R; Bluestein.im := 0%R |};
    {| Bluestein.re := 2%R; Bluestein.im := 0%R |} ].

End Sample.

(** ** [hachingRewriteNoLibrary.c]: [main] *)

Module NoLibrary.

(** The library-free program decodes with the same [extract_mp3_samples],
    prints the two statistics lines, frees the samples and returns. *)
Definition main (env : Env) (argc : Z) (dec : Decoder) : result (list event * Z) :=
  if negb (argc =? 2) then Ok ([Stdout Usage], 1)
  else
    r ← Pcm.extract_mp3_samples env dec;
    match snd r with
    | None => Ok (fst r ++ [Stderr "Failed to extract samples"], 1)
    | Some audio =>
        Ok (fst r ++ [Stdout (Extracted (num_samples audio));
                      Stdout (Duration (num_samples audio) (channels audio)
                                       (sample_rate audio))], 0)
    end.

End NoLibrary.

(** ** More small inputs *)

Module Tracks.

(** A toy two-channel recording of eight samples delivered in two reads. *)
Definition stereo_eight : Decoder :=
  {| init_ok := true; new_ok := true; open_ok := true; getformat_ok := true;
     rate := 2; dec_channels := 2; outblock := 8;
     reads := [[1; -1; 2; -2]; [3; -3; 4; -4]] |}.

(** A file the decoder cannot open. *)
Definition unreadable : Decoder :=
  {| init_ok := true; new_ok := true; open_ok := false; getformat_ok := true;
     rate := 0; dec_channels := 0; outblock := 0; reads := [] |}.

(** A decoded buffer of five samples: two complete stereo frames and one
    sample more. *)
Definition five : AudioData :=
  {| samples := [Some 10; Some 20; Some 30; Some 40; Some 50];
     num_samples := 5; sample_rate := 44100; channels := 2 |}.

End Tracks.

(* ================================================================== *)
(** * Part II: properties                                              *)
(* ================================================================== *)

(** ** Machine integers *)

Lemma int_wrap_small z : C.INT_MIN <= z <= C.INT_MAX → C.int_wrap z = z.
Proof.
  unfold C.int_wrap, C.INT_MIN, C.INT_MAX. intros Hz.
  rewrite Z.mod_small by lia. lia.
Qed.

Lemma size_wrap_small z : 0 <= z <= C.SIZE_MAX → C.size_wrap z = z.
Proof.
  unfold C.size_wrap, C.SIZE_MAX. intros Hz. apply Z.mod_small. lia.
Qed.

(** An [int] sum of two non-negative [int]s that leaves the range comes out
    negative, and as a [size_t] it lies above every halved [size_t]. *)
Lemma size_of_overflowed_sum a b :
  0 <= a <= C.INT_MAX → 0 <= b <= C.INT_MAX → C.INT_MAX < a + b →
  9223372036854775807 < C.size_of_int (C.int_add a b).
Proof.
  unfold C.size_of_int, C.int_add, C.int_wrap, C.size_wrap, C.INT_MAX.
  intros Ha Hb Hab.
  replace ((a + b + 2147483648) mod 4294967296) with (a + b - 2147483648).
  2:{ apply (Z.mod_unique_pos _ _ 1); lia. }
  replace ((a + b - 2147483648 - 2147483648) mod 18446744073709551616)
    with (a + b - 4294967296 + 18446744073709551616).
  2:{ apply (Z.mod_unique_pos _ _ (-1)); lia. }
  lia.
Qed.

(** ** Loop rules *)

Lemma for_loop_rule {St : Type} (P : Z → St → Prop) (body : Z → St → result St) n :
  ∀ j0 s0,
    P j0 s0 →
    (∀ j s, j0 <= j < j0 + Z.of_nat n → P j s →
            ∃ s', body j s = Ok s' ∧ P (j + 1) s') →
    ∃ s', for_loop n j0 body s0 = Ok s' ∧ P (j0 + Z.of_nat n) s'.
Proof.
  induction n as [|n IH]; intros j0 s0 H0 Hstep.
  - exists s0. simpl. rewrite Z.add_0_r. auto.
  - destruct (Hstep j0 s0) as (s1 & Hb & H1); [lia | done |].
    destruct (IH (j0 + 1) s1 H1) as (s' & Hl & H').
    { intros j s Hj. apply Hstep. lia. }
    exists s'. split.
    + simpl. rewrite Hb. exact Hl.
    + replace (j0 + Z.of_nat (S n)) with (j0 + 1 + Z.of_nat n) by lia. exact H'.
Qed.

Lemma for_int_rule {St : Type} (P : Z → St → Prop) (body : Z → St → result St) bound s0 :
  0 <= bound →
  P 0 s0 →
  (∀ j s, 0 <= j < bound → P j s → ∃ s', body j s = Ok s' ∧ P (j + 1) s') →
  ∃ s', for_int 0 bound body s0 = Ok s' ∧ P bound s'.
Proof.
  intros Hb H0 Hstep. unfold for_int.
  destruct (for_loop_rule P body (Z.to_nat (bound - 0)) 0 s0 H0) as (s' & Hl & H').
  { intros j s Hj. apply Hstep. lia. }
  exists s'. split; [done|].
  replace bound with (0 + Z.of_nat (Z.to_nat (bound - 0))) at 1 by lia. exact H'.
Qed.

(** A loop that passes its test [n] times and then fails it, with a body
    that preserves [P], returns when it is given more than [n] units of
    fuel. *)
Lemma c_for_rule {St : Type} (P : nat → Z → St → Prop) cond step
    (body : Z → St → result St) (n : nat) :
  (∀ k i s, (k < n)%nat → P k i s →
            cond i = true ∧ ∃ s', body i s = Ok s' ∧ P (S k) (step i) s') →
  (∀ i s, P n i s → cond i = false) →
  ∀ fuel k i s, (n - k < fuel)%nat → (k <= n)%nat → P k i s →
    ∃ i' s', c_for fuel cond step body i s = Ok s' ∧ P n i' s'.
Proof.
  intros Hstep Hexit. induction fuel as [|fuel IH]; intros k i s Hf Hk HP; [lia|].
  destruct (decide (k = n)) as [->|Hne].
  - exists i, s. simpl. rewrite (Hexit i s HP). auto.
  - destruct (Hstep k i s) as (Hc & s' & Hb & HP'); [lia | done |].
    destruct (IH (S k) (step i) s') as (i' & s'' & Hl & HP''); [lia | lia | done |].
    exists i', s''. simpl. rewrite Hc, Hb. auto.
Qed.

(** ** Heap blocks *)

Lemma load_initialised {A : Type} (l : list A) (i : Z) (v : A) :
  0 <= i → l !! Z.to_nat i = Some v → load (Some <$> l) i = Ok v.
Proof.
  intros Hi Hl. unfold load.
  destruct (Z.leb_spec 0 i); [|lia].
  rewrite list_lookup_fmap, Hl. done.
Qed.

Lemma load_cell {A : Type} (a : list (option A)) (i : Z) (v : A) :
  0 <= i → a !! Z.to_nat i = Some (Some v) → load a i = Ok v.
Proof.
  intros Hi Hl. unfold load.
  destruct (Z.leb_spec 0 i); [|lia]. rewrite Hl. done.
Qed.

Lemma store_in_range {A : Type} (a : list (option A)) (i : Z) (v : A) :
  0 <= i < Z.of_nat (length a) →
  store a i v = Ok (<[Z.to_nat i := Some v]> a).
Proof.
  intros Hi. unfold store.
  destruct (Z.leb_spec 0 i); [|lia].
  destruct (Z.ltb_spec i (Z.of_nat (length a))); [|lia]. done.
Qed.

Lemma length_malloc (A : Type) bytes elsize :
  length (malloc A bytes elsize) = Z.to_nat (bytes / elsize).
Proof. unfold malloc. apply length_replicate. Qed.

(** ** The hop loop *)

Section HopFacts.
Context {D : Type} `{DoubleOps D}.
Variable fftw_bin : list D → Z → D * D.

Lemma contents_initialised (w : list D) : Hop.contents (Some <$> w) = Ok w.
Proof.
  induction w as [|v w IH]; [done|].
  rewrite fmap_cons. cbn [Hop.contents]. rewrite IH. done.
Qed.

Lemma length_window (mono : list D) hopsize k :
  0 <= hopsize →
  Z.of_nat k * hopsize + hopsize <= Z.of_nat (length mono) →
  length (Layout.window mono hopsize k) = Z.to_nat hopsize.
Proof.
  intros Hh Hk. unfold Layout.window.
  rewrite length_take, length_drop. lia.
Qed.

Lemma lookup_window (mono : list D) hopsize k (j : nat) :
  (j < Z.to_nat hopsize)%nat →
  Layout.window mono hopsize k !! j
  = mono !! (Z.to_nat (Z.of_nat k * hopsize) + j)%nat.
Proof.
  intros Hj. unfold Layout.window.
  rewrite lookup_take_lt by done. apply lookup_drop.
Qed.

(** Copying a window that lies inside the mono samples fills [in] with
    exactly that window. *)
Lemma copy_window_spec (mono : list D) hopsize k (inb : list (option D)) :
  0 <= hopsize →
  Z.of_nat k * hopsize + hopsize <= Z.of_nat (length mono) →
  Z.of_nat k * hopsize + hopsize <= C.INT_MAX →
  length inb = Z.to_nat hopsize →
  Hop.copy_window (Some <$> mono) (Z.of_nat k * hopsize) hopsize inb
  = Ok (Some <$> Layout.window mono hopsize k).
Proof.
  intros Hh Hin Hmax Hlen. unfold Hop.copy_window.
  set (i := Z.of_nat k * hopsize) in *.
  destruct (for_int_rule
    (fun j (b : list (option D)) =>
       length b = Z.to_nat hopsize ∧
       ∀ j' : nat, (Z.of_nat j' < j) →
          b !! j' = Some <$> (Layout.window mono hopsize k !! j'))
    (fun j inb => v ← load (Some <$> mono) (C.int_add i j); store inb j v)
    hopsize inb Hh) as (b & Hb & Hlb & Hcells).
  - split; [done|]. intros j' Hj'. lia.
  - intros j b Hj [Hlb Hcells].
    assert (Hw : C.int_add i j = i + j).
    { apply int_wrap_small. unfold C.INT_MIN. lia. }
    rewrite Hw.
    destruct (lookup_lt_is_Some_2 mono (Z.to_nat (i + j))) as [v Hv]; [lia|].
    rewrite (load_initialised mono (i + j) v) by (done || lia).
    simpl. rewrite store_in_range by lia.
    eexists. split; [done|]. split; [by rewrite length_insert|].
    intros j' Hj'.
    destruct (decide (j' = Z.to_nat j)) as [->|Hne].
    + rewrite list_lookup_insert_eq by lia.
      rewrite lookup_window by lia.
      replace (Z.to_nat (Z.of_nat k * hopsize) + Z.to_nat j)%nat
        with (Z.to_nat (i + j)) by (unfold i; lia).
      rewrite Hv. done.
    + rewrite list_lookup_insert_ne by done. apply Hcells. lia.
  - rewrite Hb. f_equal. apply list_eq. intros j'.
    rewrite list_lookup_fmap.
    destruct (decide (j' < Z.to_nat hopsize)%nat) as [Hlt|Hge].
    + apply Hcells. lia.
    + rewrite !lookup_ge_None_2; [done | | lia].
      rewrite length_window; [lia | done | done].
Qed.

Lemma lookup_bins_at i hopsize (j : nat) :
  (j < Z.to_nat (hopsize / 2 + 1))%nat →
  Layout.bins_at i hopsize !! j = Some (i + Z.of_nat j).
Proof.
  intros Hj. unfold Layout.bins_at.
  rewrite list_lookup_fmap, lookup_seq_lt by done. done.
Qed.

Lemma bins_at_snoc i (n : nat) :
  (fun j => i + Z.of_nat j) <$> seq 0 (S n)
  = ((fun j => i + Z.of_nat j) <$> seq 0 n) ++ [i + Z.of_nat n].
Proof. rewrite seq_S, fmap_app. done. Qed.

(** Writing the magnitudes of one hop at offset [i]: the cells
    [i .. i + hopsize / 2] receive the magnitudes of bins [0 .. hopsize / 2],
    every other cell keeps its value. *)
Lemma write_magnitudes_spec (w : list D) i hopsize (freq : list (option D))
    (ws : list Z) :
  0 < hopsize →
  0 <= i →
  i + hopsize / 2 < Z.of_nat (length freq) →
  i + hopsize / 2 <= C.INT_MAX →
  ∃ freq',
    Hop.write_magnitudes
      ((fun j => Some (fftw_bin w (Z.of_nat j)))
         <$> seq 0 (Z.to_nat (Z.quot hopsize 2 + 1)))
      i hopsize (freq, ws)
    = Ok (freq', ws ++ Layout.bins_at i hopsize)
    ∧ length freq' = length freq
    ∧ ∀ idx : Z, 0 <= idx →
        freq' !! Z.to_nat idx
        = if (i <=? idx) && (idx <=? i + hopsize / 2)
          then Some (Some (Hop.magnitude (fftw_bin w (idx - i))))
          else freq !! Z.to_nat idx.
Proof.
  intros Hh Hi Hlen Hmax. unfold Hop.write_magnitudes.
  rewrite Z.quot_div_nonneg by lia.
  set (out := (fun j => Some (fftw_bin w (Z.of_nat j)))
                <$> seq 0 (Z.to_nat (hopsize / 2 + 1))).
  assert (Hhalf : 0 <= hopsize / 2) by (apply Z.div_pos; lia).
  destruct (for_int_rule
    (fun j (fw : list (option D) * list Z) =>
       length (fst fw) = length freq ∧
       snd fw = ws ++ ((fun j => i + Z.of_nat j) <$> seq 0 (Z.to_nat j)) ∧
       ∀ idx : Z, 0 <= idx →
         fst fw !! Z.to_nat idx
         = if (i <=? idx) && (idx <? i + j)
           then Some (Some (Hop.magnitude (fftw_bin w (idx - i))))
           else freq !! Z.to_nat idx)
    (fun j fw =>
       c ← load out j;
       f ← store (fst fw) (C.int_add i j) (Hop.magnitude c);
       Ok (f, snd fw ++ [C.int_add i j]))
    (hopsize / 2 + 1) (freq, ws)) as ([f' w'] & Hrun & Hl & Hw & Hcells).
  - lia.
  - simpl. split; [done|]. split; [by rewrite app_nil_r|].
    intros idx Hidx.
    destruct (Z.leb_spec i idx), (Z.ltb_spec idx (i + 0)); simpl; done || lia.
  - intros j [f ws'] Hj (Hl & Hws & Hcells). simpl in *.
    assert (Hw : C.int_add i j = i + j).
    { apply int_wrap_small. unfold C.INT_MIN. lia. }
    rewrite Hw.
    rewrite (load_cell out j (fftw_bin w j)); [| lia |].
    2:{ unfold out. rewrite list_lookup_fmap, lookup_seq_lt by lia.
        simpl. by rewrite Z2Nat.id by lia. }
    simpl. rewrite store_in_range by lia. simpl.
    eexists. split; [done|]. simpl. split; [by rewrite length_insert|]. split.
    + rewrite Hws. replace (Z.to_nat (j + 1)) with (S (Z.to_nat j)) by lia.
      rewrite bins_at_snoc, app_assoc. by rewrite Z2Nat.id by lia.
    + intros idx Hidx.
      destruct (decide (idx = i + j)) as [->|Hne].
      * rewrite list_lookup_insert_eq by lia.
        destruct (Z.leb_spec i (i + j)), (Z.ltb_spec (i + j) (i + (j + 1)));
          simpl; try lia.
        by replace (i + j - i) with j by lia.
      * rewrite list_lookup_insert_ne by lia. rewrite Hcells by done.
        destruct (Z.leb_spec i idx), (Z.ltb_spec idx (i + j)),
          (Z.ltb_spec idx (i + (j + 1))); simpl; done || lia.
  - simpl in *. exists f'. split; [|split; [done|]].
    + rewrite Hrun, Hw. done.
    + intros idx Hidx. rewrite Hcells by done.
      destruct (Z.leb_spec i idx), (Z.ltb_spec idx (i + (hopsize / 2 + 1))),
        (Z.leb_spec idx (i + hopsize / 2)); simpl; done || lia.
Qed.

End HopFacts.

Section HopLoop.
Context {D : Type} `{DoubleOps D}.
Variable fftw_bin : list D → Z → D * D.

Lemma windows_snoc (mono : list D) hopsize n :
  Layout.windows mono hopsize (S n)
  = Layout.windows mono hopsize n
    ++ [(Z.of_nat n * hopsize, Layout.window mono hopsize n)].
Proof. unfold Layout.windows. rewrite seq_S, fmap_app. done. Qed.

Lemma bin_indices_snoc hopsize n :
  Layout.bin_indices hopsize (S n)
  = Layout.bin_indices hopsize n ++ Layout.bins_at (Z.of_nat n * hopsize) hopsize.
Proof.
  unfold Layout.bin_indices. rewrite seq_S, fmap_app, join_app.
  simpl. by rewrite app_nil_r.
Qed.

(** A cell lies in the block written by hop [k] exactly when its quotient
    by [hopsize] is [k] and its remainder is at most [hopsize / 2]. *)
Lemma in_hop_block hopsize k idx :
  0 < hopsize → 0 <= k →
  (k * hopsize <= idx ∧ idx <= k * hopsize + hopsize / 2)
  ↔ (idx / hopsize = k ∧ idx mod hopsize <= hopsize / 2).
Proof.
  intros Hh Hk.
  assert (Hlt : hopsize / 2 < hopsize) by (apply Z.div_lt; lia).
  split.
  - intros [Hlo Hhi].
    assert (Hq : idx / hopsize = k).
    { symmetry. apply (Z.div_unique_pos idx hopsize k (idx - k * hopsize)); lia. }
    split; [done|].
    rewrite Z.mod_eq by lia. rewrite Hq. lia.
  - intros [Hq Hr].
    pose proof (Z.div_mod idx hopsize ltac:(lia)) as Hdm.
    pose proof (Z.mod_pos_bound idx hopsize Hh) as Hb.
    rewrite Hq in Hdm. lia.
Qed.

Lemma flat_cell_step (mono : list D) hopsize (k : nat) freq0 idx :
  0 < hopsize → 0 <= idx →
  Layout.flat_cell fftw_bin mono hopsize (S k) freq0 idx
  = if (Z.of_nat k * hopsize <=? idx)
       && (idx <=? Z.of_nat k * hopsize + hopsize / 2)
    then Some (Some (Hop.magnitude
                       (fftw_bin (Layout.window mono hopsize k)
                                 (idx - Z.of_nat k * hopsize))))
    else Layout.flat_cell fftw_bin mono hopsize k freq0 idx.
Proof.
  intros Hh Hidx. unfold Layout.flat_cell.
  assert (Hhalf0 : 0 <= hopsize / 2) by (apply Z.div_pos; lia).
  pose proof (in_hop_block hopsize (Z.of_nat k) idx Hh ltac:(lia)) as Hblock.
  destruct (Z.leb_spec (Z.of_nat k * hopsize) idx) as [Hlo|Hlo];
    destruct (Z.leb_spec idx (Z.of_nat k * hopsize + hopsize / 2)) as [Hhi|Hhi];
    simpl.
  - destruct Hblock as [Hb _]. destruct Hb as [Hq Hr]; [done|].
    destruct (Z.ltb_spec (idx / hopsize) (Z.of_nat (S k))); [|lia].
    destruct (Z.leb_spec (idx mod hopsize) (hopsize / 2)); [|lia].
    simpl. rewrite Hq, Nat2Z.id.
    rewrite Z.mod_eq by lia. rewrite Hq.
    by replace (idx - hopsize * Z.of_nat k) with (idx - Z.of_nat k * hopsize) by lia.
  - destruct (Z.ltb_spec (idx / hopsize) (Z.of_nat (S k))),
      (Z.ltb_spec (idx / hopsize) (Z.of_nat k)),
      (Z.leb_spec (idx mod hopsize) (hopsize / 2)); simpl; done || lia.
  - destruct (Z.ltb_spec (idx / hopsize) (Z.of_nat (S k))),
      (Z.ltb_spec (idx / hopsize) (Z.of_nat k)),
      (Z.leb_spec (idx mod hopsize) (hopsize / 2)); simpl; done || lia.
  - lia.
Qed.

(** The hop loop in closed form.  The loop performs [hop_count half
    hopsize] iterations; hop [k] transforms the window at offset
    [k * hopsize] and writes its magnitudes at [k * hopsize + j]. *)
Lemma hop_loop_spec (mono : list D) hopsize fuel (st0 : Hop.state) :
  0 < hopsize <= C.INT_MAX →
  Z.of_nat (length mono) <= 9223372036854775807 →
  length (Hop.in_buf st0) = Z.to_nat hopsize →
  length (Hop.freqArr st0) = length mono →
  let half := Z.of_nat (length mono) in
  let n := Layout.hop_count half hopsize in
  (n < fuel)%nat →
  ∃ st,
    Hop.hop_loop fftw_bin fuel (Some <$> mono) hopsize half st0 = Ok st
    ∧ Hop.hops st = Hop.hops st0 ++ Layout.windows mono hopsize n
    ∧ Hop.writes st = Hop.writes st0 ++ Layout.bin_indices hopsize n
    ∧ length (Hop.freqArr st) = length mono
    ∧ ∀ idx, 0 <= idx →
        Hop.freqArr st !! Z.to_nat idx
        = Layout.flat_cell fftw_bin mono hopsize n (Hop.freqArr st0) idx.
Proof.
  intros Hh Hhalf Hin Hfreq half n Hfuel.
  pose proof (Z.mul_div_le (Z.min half C.INT_MAX) hopsize ltac:(lia)) as Hle.
  pose proof (Z.mul_succ_div_gt (Z.min half C.INT_MAX) hopsize ltac:(lia)) as Hgt.
  assert (Hn : Z.of_nat n = Z.min half C.INT_MAX / hopsize).
  { unfold n, Layout.hop_count. rewrite Z2Nat.id; [done|].
    apply Z.div_pos; unfold C.INT_MAX; lia. }
  rewrite <- Hn in Hle, Hgt.
  assert (Hlt : hopsize / 2 < hopsize) by (apply Z.div_lt; lia).
  assert (Hhalf0 : 0 <= hopsize / 2) by (apply Z.div_pos; lia).
  set (P := fun (k : nat) (i : Z) (st : Hop.state) =>
    i = Z.of_nat k * hopsize
    ∧ length (Hop.in_buf st) = Z.to_nat hopsize
    ∧ Hop.hops st = Hop.hops st0 ++ Layout.windows mono hopsize k
    ∧ Hop.writes st = Hop.writes st0 ++ Layout.bin_indices hopsize k
    ∧ length (Hop.freqArr st) = length mono
    ∧ ∀ idx, 0 <= idx →
        Hop.freqArr st !! Z.to_nat idx
        = Layout.flat_cell fftw_bin mono hopsize k (Hop.freqArr st0) idx).
  destruct (c_for_rule P
    (fun i => C.size_of_int (C.int_add i hopsize) <=? half)
    (fun i => C.int_add i hopsize)
    (Hop.hop_body fftw_bin (Some <$> mono) hopsize) n) with
    (fuel := fuel) (k := 0%nat) (i := 0) (s := st0)
    as (i' & st & Hrun & HP).
  - (* one iteration *)
    intros k i st Hk (Hi & Hlin & Hhops & Hws & Hlf & Hcells).
    assert (Hnext : Z.of_nat k * hopsize + hopsize <= Z.min half C.INT_MAX) by nia.
    assert (Hadd : C.int_add i hopsize = Z.of_nat (S k) * hopsize).
    { unfold C.int_add. rewrite int_wrap_small; unfold C.INT_MIN; lia. }
    split.
    + rewrite Hadd. unfold C.size_of_int.
      rewrite size_wrap_small by (unfold C.SIZE_MAX, C.INT_MAX in *; lia).
      apply Z.leb_le. lia.
    + unfold Hop.hop_body. subst i.
      rewrite copy_window_spec; [| lia | unfold half in *; lia | lia | done].
      simpl. unfold Hop.fftw_execute. rewrite contents_initialised. simpl.
      destruct (write_magnitudes_spec fftw_bin (Layout.window mono hopsize k)
                  (Z.of_nat k * hopsize) hopsize (Hop.freqArr st) (Hop.writes st))
        as (freq' & Hw & Hlen' & Hcells'); [lia | lia | unfold half in *; lia | lia |].
      rewrite Hw. simpl. eexists. split; [done|].
      unfold P. simpl. split; [done|]. split.
      { rewrite length_fmap. apply length_window; unfold half in *; lia. }
      split; [by rewrite Hhops, windows_snoc, app_assoc|].
      split; [by rewrite Hws, bin_indices_snoc, app_assoc|].
      split; [lia|].
      intros idx Hidx. rewrite Hcells' by done.
      rewrite flat_cell_step by (done || lia).
      rewrite Hcells by done. done.
  - (* the test fails after [n] iterations *)
    intros i st (Hi & _). apply Z.leb_gt.
    destruct (Z.le_gt_cases (i + hopsize) C.INT_MAX) as [Hfit|Hover].
    + unfold C.int_add. rewrite int_wrap_small by (unfold C.INT_MIN; lia).
      unfold C.size_of_int.
      rewrite size_wrap_small by (unfold C.SIZE_MAX, C.INT_MAX in *; lia).
      lia.
    + pose proof (size_of_overflowed_sum i hopsize) as Hbig.
      unfold half. lia.
  - lia.
  - lia.
  - unfold P. simpl. unfold Layout.windows, Layout.bin_indices. simpl.
    rewrite !app_nil_r. repeat split; try done.
    intros idx Hidx. unfold Layout.flat_cell.
    pose proof (Z.div_pos idx hopsize).
    destruct (Z.ltb_spec (idx / hopsize) (Z.of_nat 0)); [lia | done].
  - destruct HP as (_ & _ & Hhops & Hws & Hlf & Hcells).
    exists st. unfold Hop.hop_loop. auto.
Qed.

End HopLoop.

Section FlatLayout.
Context {D : Type} `{DoubleOps D}.
Variable fftw_bin : list D → Z → D * D.

Lemma elem_of_bins_at i hopsize idx :
  idx ∈ Layout.bins_at i hopsize → i <= idx <= i + hopsize / 2.
Proof.
  unfold Layout.bins_at. intros Hin.
  apply list_elem_of_fmap in Hin as (j & -> & Hj).
  apply elem_of_seq in Hj. lia.
Qed.

Lemma NoDup_bins_at i hopsize : NoDup (Layout.bins_at i hopsize).
Proof.
  unfold Layout.bins_at. apply NoDup_fmap_2; [|apply NoDup_seq].
  intros a b Hab. lia.
Qed.

(** Everything the first [n] hops write lies below [n * hopsize]. *)
Lemma bin_indices_bound hopsize n :
  0 < hopsize →
  Forall (fun idx => 0 <= idx < Z.of_nat n * hopsize) (Layout.bin_indices hopsize n).
Proof.
  intros Hh.
  assert (Hlt : hopsize / 2 < hopsize) by (apply Z.div_lt; lia).
  induction n as [|n IH]; [constructor|].
  rewrite bin_indices_snoc. apply Forall_app. split.
  - eapply Forall_impl; [exact IH|]. simpl. intros idx Hidx. nia.
  - apply Forall_forall. intros idx Hin.
    apply elem_of_bins_at in Hin. nia.
Qed.

Lemma NoDup_bin_indices hopsize n :
  0 < hopsize → NoDup (Layout.bin_indices hopsize n).
Proof.
  intros Hh. induction n as [|n IH]; [constructor|].
  rewrite bin_indices_snoc. apply NoDup_app. split; [done|]. split.
  - intros idx Hin1 Hin2.
    pose proof (bin_indices_bound hopsize n Hh) as Hb.
    rewrite Forall_forall in Hb. apply Hb in Hin1.
    apply elem_of_bins_at in Hin2. lia.
  - apply NoDup_bins_at.
Qed.

Lemma NoDup_not_clobbered (ws : list Z) : NoDup ws → ¬ clobbered ws.
Proof.
  intros Hnd (a & b & idx & Hab & Ha & Hb).
  rewrite NoDup_alt in Hnd. specialize (Hnd a b idx Ha Hb). lia.
Qed.

Lemma length_windows (mono : list D) hopsize n :
  length (Layout.windows mono hopsize n) = n.
Proof. unfold Layout.windows. by rewrite length_fmap, length_seq. Qed.

Lemma windows_full (mono : list D) hopsize n :
  0 <= hopsize →
  Z.of_nat n * hopsize <= Z.of_nat (length mono) →
  Forall (fun ow => length (snd ow) = Z.to_nat hopsize)
         (Layout.windows mono hopsize n).
Proof.
  intros Hh Hn. unfold Layout.windows.
  apply Forall_fmap, Forall_forall. intros k Hk. simpl.
  apply elem_of_seq in Hk. apply length_window; [done|]. nia.
Qed.

(** Laid end to end, the first [n] windows are the first [n * hopsize]
    samples. *)
Lemma windows_join (mono : list D) hopsize n :
  0 <= hopsize →
  mjoin (snd <$> Layout.windows mono hopsize n)
  = take (n * Z.to_nat hopsize) mono.
Proof.
  intros Hh. induction n as [|n IH]; [done|].
  rewrite windows_snoc, fmap_app, join_app, IH. simpl.
  rewrite app_nil_r. unfold Layout.window.
  replace (Z.to_nat (Z.of_nat n * hopsize)) with (n * Z.to_nat hopsize)%nat by lia.
  rewrite take_take_drop. f_equal. lia.
Qed.

Lemma hop_count_in_range half hopsize :
  0 <= half <= C.INT_MAX →
  Layout.hop_count half hopsize = Z.to_nat (half / hopsize).
Proof.
  intros Hhalf. unfold Layout.hop_count. by rewrite Z.min_l by lia.
Qed.

(** C1: for a mono sample sequence and a positive hopsize (both within
    the range of the loop's [int] counter) the hop loop transforms exactly
    the windows [[k * hopsize, k * hopsize + hopsize)] for
    k = 0, 1, ..., in order; every window is a full [hopsize] samples
    (nothing is padded), the windows laid end to end are a prefix of the
    samples (they do not overlap and skip nothing), and the loop stops as
    soon as fewer than [hopsize] samples remain, dropping them. *)
Theorem hop_segmentation (mono : list D) (hopsize : Z) (fuel : nat)
    (st0 : Hop.state) :
  0 < hopsize <= C.INT_MAX →
  Z.of_nat (length mono) <= C.INT_MAX →
  length (Hop.in_buf st0) = Z.to_nat hopsize →
  length (Hop.freqArr st0) = length mono →
  Hop.hops st0 = [] →
  let n := Z.to_nat (Z.of_nat (length mono) / hopsize) in
  (n < fuel)%nat →
  ∃ st,
    Hop.hop_loop fftw_bin fuel (Some <$> mono) hopsize (Z.of_nat (length mono)) st0
    = Ok st
    ∧ Hop.hops st
      = (fun k => (Z.of_nat k * hopsize,
                   take (Z.to_nat hopsize)
                        (drop (Z.to_nat (Z.of_nat k * hopsize)) mono)))
          <$> seq 0 n
    ∧ Forall (fun ow => length (snd ow) = Z.to_nat hopsize) (Hop.hops st)
    ∧ mjoin (snd <$> Hop.hops st) = take (n * Z.to_nat hopsize) mono
    ∧ (length mono - n * Z.to_nat hopsize < Z.to_nat hopsize)%nat.
Proof.
  intros Hh Hlen Hin Hfreq Hhops n Hfuel.
  pose proof (hop_count_in_range (Z.of_nat (length mono)) hopsize ltac:(lia)) as Hcount.
  fold n in Hcount.
  destruct (hop_loop_spec fftw_bin mono hopsize fuel st0) as (st & Hrun & Hh' & _);
    try done.
  { unfold C.INT_MAX in *. lia. }
  { rewrite Hcount. done. }
  rewrite Hcount, Hhops in Hh'. simpl in Hh'.
  pose proof (Z.mul_div_le (Z.of_nat (length mono)) hopsize ltac:(lia)) as Hle.
  pose proof (Z.mul_succ_div_gt (Z.of_nat (length mono)) hopsize ltac:(lia)) as Hgt.
  assert (Hn : Z.of_nat n = Z.of_nat (length mono) / hopsize).
  { unfold n. rewrite Z2Nat.id; [done|]. apply Z.div_pos; lia. }
  rewrite <- Hn in Hle, Hgt.
  exists st. split; [done|]. rewrite Hh'.
  split; [done|]. split; [apply windows_full; lia|].
  split; [apply windows_join; lia|]. nia.
Qed.

(** C9: every magnitude written during the hop loop lands inside
    [freqArr].  With [freqArr] holding [num_samples / 2] elements, the loop
    returns, and each index [i + j] it has written (hop offset [i], bin
    [j] in [[0, hopsize / 2]]) satisfies [0 <= i + j < num_samples / 2]. *)
Theorem freqArr_writes_in_bounds (num_samples : Z) (mono : list D)
    (hopsize : Z) (fuel : nat) (st0 : Hop.state) :
  0 <= num_samples <= C.SIZE_MAX →
  Z.of_nat (length mono) = num_samples / 2 →
  0 < hopsize <= C.INT_MAX →
  length (Hop.in_buf st0) = Z.to_nat hopsize →
  length (Hop.freqArr st0) = Z.to_nat (num_samples / 2) →
  Hop.writes st0 = [] →
  (Layout.hop_count (num_samples / 2) hopsize < fuel)%nat →
  ∃ st,
    Hop.hop_loop fftw_bin fuel (Some <$> mono) hopsize (num_samples / 2) st0 = Ok st
    ∧ Hop.writes st
      = mjoin ((fun k => (fun j => Z.of_nat k * hopsize + Z.of_nat j)
                           <$> seq 0 (Z.to_nat (hopsize / 2 + 1)))
                 <$> seq 0 (Layout.hop_count (num_samples / 2) hopsize))
    ∧ Forall (fun idx => 0 <= idx < num_samples / 2) (Hop.writes st).
Proof.
  intros Hns Hlen Hh Hin Hfreq Hws Hfuel.
  assert (Hhalf : num_samples / 2 <= 9223372036854775807).
  { assert (num_samples / 2 < 9223372036854775808); [|lia].
    apply Z.div_lt_upper_bound; unfold C.SIZE_MAX in *; lia. }
  rewrite <- Hlen in *.
  destruct (hop_loop_spec fftw_bin mono hopsize fuel st0) as (st & Hrun & _ & Hw & _);
    try done.
  { lia. }
  rewrite Hws in Hw. simpl in Hw.
  exists st. split; [done|]. split; [done|]. rewrite Hw.
  set (n := Layout.hop_count (Z.of_nat (length mono)) hopsize).
  pose proof (bin_indices_bound hopsize n ltac:(lia)) as Hb.
  eapply Forall_impl; [exact Hb|]. simpl. intros idx Hidx.
  assert (Z.of_nat n * hopsize <= Z.of_nat (length mono)); [|lia].
  unfold n, Layout.hop_count. rewrite Z2Nat.id by (apply Z.div_pos; unfold C.INT_MAX; lia).
  pose proof (Z.mul_div_le (Z.min (Z.of_nat (length mono)) C.INT_MAX) hopsize ltac:(lia)).
  lia.
Qed.

(** C5 (as amended): the flat array is indexed by absolute sample offset,
    hop [k] writing the cells [k * hopsize + j] for [j] in
    [[0, hopsize / 2]].  The blocks of different hops are disjoint: no cell
    is written twice, at the end of the loop every hop's magnitudes (tail
    bins included) are still in place, and the cells
    [k * hopsize + j] with [hopsize / 2 < j < hopsize] are never written. *)
Theorem flat_array_hops_disjoint (mono : list D) (hopsize : Z) (fuel : nat)
    (st0 : Hop.state) :
  0 < hopsize <= C.INT_MAX →
  Z.of_nat (length mono) <= 9223372036854775807 →
  length (Hop.in_buf st0) = Z.to_nat hopsize →
  length (Hop.freqArr st0) = length mono →
  Hop.writes st0 = [] →
  let n := Layout.hop_count (Z.of_nat (length mono)) hopsize in
  (n < fuel)%nat →
  ∃ st,
    Hop.hop_loop fftw_bin fuel (Some <$> mono) hopsize (Z.of_nat (length mono)) st0
    = Ok st
    ∧ ¬ clobbered (Hop.writes st)
    ∧ (∀ (k : nat) (j : Z), (k < n)%nat → 0 <= j <= hopsize / 2 →
         Hop.freqArr st !! Z.to_nat (Z.of_nat k * hopsize + j)
         = Some (Some (Hop.magnitude
                         (fftw_bin (take (Z.to_nat hopsize)
                                      (drop (Z.to_nat (Z.of_nat k * hopsize)) mono))
                                   j))))
    ∧ (∀ (k : nat) (j : Z), (k < n)%nat → hopsize / 2 < j < hopsize →
         Hop.freqArr st !! Z.to_nat (Z.of_nat k * hopsize + j)
         = Hop.freqArr st0 !! Z.to_nat (Z.of_nat k * hopsize + j)).
Proof.
  intros Hh Hlen Hin Hfreq Hws n Hfuel.
  destruct (hop_loop_spec fftw_bin mono hopsize fuel st0)
    as (st & Hrun & _ & Hw & _ & Hcells); try done.
  fold n in Hw, Hcells. rewrite Hws in Hw. simpl in Hw.
  assert (Hhalf0 : 0 <= hopsize / 2) by (apply Z.div_pos; lia).
  assert (Hlt : hopsize / 2 < hopsize) by (apply Z.div_lt; lia).
  exists st. split; [done|]. split; [|split].
  - rewrite Hw. apply NoDup_not_clobbered, NoDup_bin_indices. lia.
  - intros k j Hk Hj. rewrite Hcells by nia. unfold Layout.flat_cell.
    assert (Hq : (Z.of_nat k * hopsize + j) / hopsize = Z.of_nat k).
    { symmetry. apply (Z.div_unique_pos _ hopsize _ j); lia. }
    assert (Hr : (Z.of_nat k * hopsize + j) mod hopsize = j).
    { symmetry. apply (Z.mod_unique_pos _ hopsize (Z.of_nat k) j); lia. }
    rewrite Hq, Hr, Nat2Z.id.
    destruct (Z.ltb_spec (Z.of_nat k) (Z.of_nat n)); [|lia].
    destruct (Z.leb_spec j (hopsize / 2)); [|lia]. done.
  - intros k j Hk Hj. rewrite Hcells by nia. unfold Layout.flat_cell.
    assert (Hr : (Z.of_nat k * hopsize + j) mod hopsize = j).
    { symmetry. apply (Z.mod_unique_pos _ hopsize (Z.of_nat k) j); lia. }
    rewrite Hr.
    destruct (Z.leb_spec j (hopsize / 2)); [lia|].
    by rewrite andb_false_r.
Qed.

End FlatLayout.

(** ** Left-channel extraction and [main] *)

Section MainFacts.
Context {D : Type} `{DoubleOps D}.
Variable fftw_bin : list D → Z → D * D.

Lemma length_channel channels c pcm :
  length (Main.channel channels c pcm) = (length pcm / channels)%nat.
Proof. unfold Main.channel. by rewrite length_fmap, length_seq. Qed.

Lemma lookup_channel channels c pcm (i : nat) :
  (i < length pcm / channels)%nat →
  Main.channel channels c pcm !! i
  = Some (default 0 (pcm !! (i * channels + c)%nat)).
Proof.
  intros Hi. unfold Main.channel.
  rewrite list_lookup_fmap, lookup_seq_lt by done. done.
Qed.

(** What the extraction loop computes, whatever [audio.channels] says:
    every second sample, starting with the first. *)
Lemma extract_left_spec (audio : AudioData) (pcm : list Z) (fuel : nat)
    (left : list (option D)) :
  Main.holds audio pcm →
  num_samples audio / 2 <= 1073741824 →
  length left = Z.to_nat (num_samples audio / 2) →
  (Z.to_nat (num_samples audio / 2) < fuel)%nat →
  Main.extract_left fuel audio left
  = Ok (Some <$> (d_of_Z <$> Main.channel 2 0 pcm)).
Proof.
  intros [Hn Hcells] Hhalf Hlen Hfuel.
  set (half := num_samples audio / 2) in *.
  assert (Hhalf0 : 0 <= half) by (apply Z.div_pos; lia).
  assert (Hdiv : (length pcm / 2)%nat = Z.to_nat half).
  { unfold half. rewrite Hn.
    rewrite <- (Nat2Z.id (length pcm / 2)), Nat2Z.inj_div. done. }
  set (P := fun (k : nat) (i : Z) (l : list (option D)) =>
    i = Z.of_nat k ∧ length l = Z.to_nat half
    ∧ ∀ j : nat, (j < k)%nat →
        l !! j = Some <$> (d_of_Z <$> Main.channel 2 0 pcm) !! j).
  destruct (c_for_rule P
    (fun i => C.size_of_int i <? half)
    (fun i => C.int_add i 1)
    (fun i left =>
       v ← load (samples audio) (C.int_mul i 2);
       store left i (d_of_Z v)) (Z.to_nat half)) with
    (fuel := fuel) (k := 0%nat) (i := 0) (s := left)
    as (i' & l' & Hrun & _ & Hl' & Hcells').
  - intros k i l Hk (-> & Hl & Hc). split.
    + unfold C.size_of_int.
      rewrite size_wrap_small by (unfold C.SIZE_MAX; lia).
      apply Z.ltb_lt. lia.
    + unfold C.int_mul.
      rewrite int_wrap_small by (unfold C.INT_MIN, C.INT_MAX; lia).
      assert (Hlt : (k * 2 < length pcm)%nat).
      { assert (2 * half <= num_samples audio); [|lia].
        apply Z.mul_div_le. lia. }
      destruct (lookup_lt_is_Some_2 pcm (k * 2)%nat Hlt) as [v Hv].
      rewrite (load_cell (samples audio) (Z.of_nat k * 2) v); [| lia |].
      2:{ rewrite <- (lookup_take_lt _ (length pcm)) by lia.
          rewrite Hcells, list_lookup_fmap.
          replace (Z.to_nat (Z.of_nat k * 2)) with (k * 2)%nat by lia.
          rewrite Hv. done. }
      simpl. rewrite store_in_range by lia.
      eexists. split; [done|]. split.
      { unfold C.int_add. rewrite int_wrap_small; unfold C.INT_MIN, C.INT_MAX; lia. }
      split; [by rewrite length_insert|].
      intros j Hj. destruct (decide (j = k)) as [->|Hne].
      * rewrite Nat2Z.id, list_lookup_insert_eq by lia.
        rewrite list_lookup_fmap, lookup_channel by lia.
        simpl. rewrite Nat.add_0_r, Hv. done.
      * rewrite Nat2Z.id, list_lookup_insert_ne by done. apply Hc. lia.
  - intros i l (-> & _). apply Z.ltb_ge. unfold C.size_of_int.
    rewrite size_wrap_small by (unfold C.SIZE_MAX; lia). lia.
  - lia.
  - lia.
  - split; [done|]. split; [done|]. intros j Hj. lia.
  - unfold Main.extract_left. fold half. rewrite Hrun. f_equal.
    apply list_eq. intros j.
    destruct (decide (j < Z.to_nat half)%nat) as [Hlt|Hge].
    + rewrite Hcells' by done. by rewrite !list_lookup_fmap.
    + rewrite !lookup_ge_None_2; [done | | lia].
      rewrite !length_fmap, length_channel. lia.
Qed.

(** X6: the extraction loop indexes [samples] with the [int] product
    [i * 2].  At [i = 2^30] the product wraps to a negative index, so a run
    that returns has extracted at most [2^30] mono samples: every mono
    sequence that reaches the hop loop can be indexed by an [int]. *)
Lemma extract_left_int_range (fuel : nat) (audio : AudioData)
    (left left' : list (option D)) :
  0 <= num_samples audio <= C.SIZE_MAX →
  Main.extract_left fuel audio left = Ok left' →
  num_samples audio / 2 <= 1073741824.
Proof.
  intros Hns Hrun.
  destruct (Z.le_gt_cases (num_samples audio / 2) 1073741824) as [|Hbig]; [done|].
  exfalso.
  assert (Hhalf : num_samples audio / 2 < 9223372036854775808).
  { apply Z.div_lt_upper_bound; unfold C.SIZE_MAX in *; lia. }
  assert (Hgen : ∀ (fuel : nat) (i : Z) (l : list (option D)),
    0 <= i <= 1073741824 →
    c_for fuel (fun i => C.size_of_int i <? num_samples audio / 2)
      (fun i => C.int_add i 1)
      (fun i left =>
         v ← load (samples audio) (C.int_mul i 2);
         store left i (d_of_Z v)) i l ≠ Ok left').
  { clear fuel left Hrun. induction fuel as [|fuel IH]; intros i l Hi; [done|].
    simpl.
    assert (Hc : (C.size_of_int i <? num_samples audio / 2) = true).
    { apply Z.ltb_lt. unfold C.size_of_int.
      rewrite size_wrap_small by (unfold C.SIZE_MAX; lia). lia. }
    rewrite Hc.
    destruct (decide (i = 1073741824)) as [->|Hne].
    - done.
    - destruct (load (samples audio) (C.int_mul i 2)) as [v| |]; try done.
      simpl. destruct (store l i (d_of_Z v)) as [l1| |]; try done.
      simpl. replace (C.int_add i 1) with (i + 1).
      + apply IH. lia.
      + unfold C.int_add.
        rewrite int_wrap_small; unfold C.INT_MIN, C.INT_MAX; lia. }
  apply (Hgen fuel 0 left); [lia|]. exact Hrun.
Qed.

(** C4, the code at a mono recording: with [channels = 1] and the four
    samples 10, 20, 30, 40 the extraction returns the two samples at
    positions 0 and 2, whereas channel 0 of one-sample frames is all
    four. *)
Theorem extract_left_of_mono_recording :
  let audio := {| samples := [Some 10; Some 20; Some 30; Some 40];
                  num_samples := 4; sample_rate := 44100; channels := 1 |} in
  Main.extract_left 3 audio
    (malloc D (C.size_mul (num_samples audio / 2) C.sizeof_double) C.sizeof_double)
  = Ok [Some (d_of_Z 10); Some (d_of_Z 30)]
  ∧ Main.channel 1 0 [10; 20; 30; 40] = [10; 20; 30; 40]
  ∧ Main.channel 2 0 [10; 20; 30; 40] = [10; 30].
Proof. split; [reflexivity | split; reflexivity]. Qed.

(** C10: a decoded input with fewer than [hopsize] mono samples.  When
    the allocator, the planner and the clock grant every request, [main]
    runs the hop loop for zero iterations (no transform, no magnitude
    written), prints the extraction statistics and the elapsed time, and
    exits with status 0. *)
Theorem short_input_skips_hop_loop (env : Env) (dec : Decoder) (fuel : nat)
    (tr : list event) (audio : AudioData) (pcm : list Z) :
  Pcm.extract_mp3_samples env dec = Ok (tr, Some audio) →
  Main.holds audio pcm →
  num_samples audio / 2 < Main.hopsize →
  (∀ bytes, malloc_ok env bytes = true) →
  plan_ok env = true →
  clock_start_ok env = true →
  clock_end_ok env = true →
  (Z.to_nat (num_samples audio / 2) < fuel)%nat →
  Main.main fftw_bin env 2 dec fuel
  = Ok {| Main.trace :=
            tr ++ [Stdout (Extracted (num_samples audio));
                   Stdout (Duration (num_samples audio) (channels audio)
                                    (sample_rate audio));
                   Stdout Elapsed];
          Main.status := 0;
          Main.transformed := [];
          Main.written := [] |}.
Proof.
  intros Hdec Hholds Hshort Hmalloc Hplan Hc1 Hc2 Hfuel.
  unfold Main.hopsize in Hshort.
  set (half := num_samples audio / 2) in *.
  assert (Hhalf0 : 0 <= half).
  { apply Z.div_pos; [|lia]. destruct Hholds as [-> _]. lia. }
  assert (Hbytes : C.size_mul half C.sizeof_double / C.sizeof_double = half).
  { unfold C.size_mul, C.sizeof_double.
    rewrite size_wrap_small by (unfold C.SIZE_MAX; lia).
    apply Z.div_mul. lia. }
  unfold Main.main, Main.analyse. simpl. rewrite Hdec. simpl. fold half.
  rewrite !Hmalloc, Hplan, Hc1, Hc2. simpl.
  rewrite (extract_left_spec audio pcm fuel); [| done | fold half; lia | | done].
  2:{ rewrite length_malloc. fold half. by rewrite Hbytes. }
  simpl.
  set (mono := d_of_Z <$> Main.channel 2 0 pcm).
  assert (Hmono : Z.of_nat (length mono) = half).
  { unfold mono. rewrite length_fmap, length_channel.
    destruct Hholds as [Hn _]. unfold half. rewrite Hn.
    by rewrite Nat2Z.inj_div. }
  rewrite <- Hmono.
  destruct (hop_loop_spec fftw_bin mono Main.hopsize fuel
    {| Hop.in_buf := malloc D (C.size_mul (C.size_of_int Main.hopsize) C.sizeof_double)
                       C.sizeof_double;
       Hop.freqArr := malloc D (C.size_mul (Z.of_nat (length mono)) C.sizeof_double)
                        C.sizeof_double;
       Hop.hops := []; Hop.writes := [] |})
    as (st & Hrun & Hhops & Hws & _).
  - unfold Main.hopsize, C.INT_MAX. lia.
  - lia.
  - cbn [Hop.in_buf]. rewrite length_malloc. reflexivity.
  - cbn [Hop.freqArr]. rewrite length_malloc, Hmono, Hbytes. lia.
  - unfold Layout.hop_count. rewrite Hmono.
    rewrite Z.min_l by (unfold C.INT_MAX; lia).
    rewrite Z.div_small by (unfold Main.hopsize; lia). simpl. lia.
  - assert (Hzero : Layout.hop_count (Z.of_nat (length mono)) Main.hopsize = 0%nat).
    { unfold Layout.hop_count. rewrite Hmono.
      rewrite Z.min_l by (unfold C.INT_MAX; lia).
      by rewrite Z.div_small by (unfold Main.hopsize; lia). }
    rewrite Hzero in Hhops, Hws. simpl in Hhops, Hws.
    unfold Main.hopsize in *.
    rewrite Hrun. simpl. rewrite Hhops, Hws.
    rewrite <- app_assoc. done.
Qed.

End MainFacts.

(** ** The growable sample buffer *)

Lemma length_realloc {A : Type} (a : list (option A)) bytes elsize :
  length (Pcm.realloc a bytes elsize) = Z.to_nat (bytes / elsize).
Proof.
  unfold Pcm.realloc. rewrite length_app, length_take, length_replicate. lia.
Qed.

Lemma lookup_realloc {A : Type} (a : list (option A)) bytes elsize (i : nat) :
  (i < length a)%nat → (i < Z.to_nat (bytes / elsize))%nat →
  Pcm.realloc a bytes elsize !! i = a !! i.
Proof.
  intros Ha Hn. unfold Pcm.realloc.
  rewrite lookup_app_l by (rewrite length_take; lia).
  by apply lookup_take_lt.
Qed.

(** Copying a block behind [total] samples, when the block fits: the
    earlier cells are untouched and the block follows them. *)
Lemma copy_block_spec (block pcm : list Z) (c : list (option Z)) :
  Z.of_nat (length pcm) + Z.of_nat (length block) <= Z.of_nat (length c) →
  Z.of_nat (length c) <= C.SIZE_MAX →
  take (length pcm) c = Some <$> pcm →
  ∃ c', Pcm.copy_block block (Z.of_nat (length pcm)) c = Ok c'
        ∧ length c' = length c
        ∧ take (length (pcm ++ block)) c' = Some <$> (pcm ++ block).
Proof.
  intros Hfit Hmax Hpre. unfold Pcm.copy_block.
  set (total := Z.of_nat (length pcm)).
  destruct (for_int_rule
    (fun j (c' : list (option Z)) =>
       length c' = length c
       ∧ (∀ i : nat, (i < length pcm)%nat → c' !! i = c !! i)
       ∧ ∀ i : nat, Z.of_nat i < j →
           c' !! (length pcm + i)%nat = Some <$> (block !! i))
    (fun i c =>
       match block !! Z.to_nat i with
       | Some v => store c (C.size_add total i) v
       | None => Fault
       end)
    (Z.of_nat (length block)) c) as (c' & Hrun & Hlen & Hold & Hnew).
  - lia.
  - split; [done|]. split; [done|]. intros i Hi. lia.
  - intros j c' Hj (Hlen & Hold & Hnew).
    destruct (lookup_lt_is_Some_2 block (Z.to_nat j)) as [v Hv]; [lia|].
    rewrite Hv.
    assert (Hw : C.size_add total j = total + j).
    { apply size_wrap_small. unfold total. lia. }
    rewrite Hw, store_in_range by (unfold total; lia).
    eexists. split; [done|]. split; [by rewrite length_insert|]. split.
    + intros i Hi. rewrite list_lookup_insert_ne by (unfold total; lia). by apply Hold.
    + intros i Hi. destruct (decide (i = Z.to_nat j)) as [->|Hne].
      * replace (Z.to_nat (total + j)) with (length pcm + Z.to_nat j)%nat
          by (unfold total; lia).
        rewrite list_lookup_insert_eq by lia. by rewrite Hv.
      * rewrite list_lookup_insert_ne by (unfold total; lia). apply Hnew. lia.
  - exists c'. split; [done|]. split; [done|].
    apply list_eq. intros i. rewrite list_lookup_fmap, length_app.
    destruct (decide (i < length pcm + length block)%nat) as [Hlt|Hge].
    + rewrite lookup_take_lt by done.
      destruct (decide (i < length pcm)%nat) as [Hlo|Hhi].
      * rewrite Hold by done. rewrite lookup_app_l by done.
        rewrite <- (lookup_take_lt c (length pcm)) by done.
        by rewrite Hpre, list_lookup_fmap.
      * rewrite lookup_app_r by lia.
        replace i with (length pcm + (i - length pcm))%nat at 1 by lia.
        apply Hnew. lia.
    + rewrite lookup_take_ge by lia.
      rewrite lookup_ge_None_2; [done|]. rewrite length_app. lia.
Qed.

(** One append to a well-formed builder, for a block no longer than its
    capacity. *)
Lemma append_spec (env : Env) (b : Pcm.builder) (pcm block : list Z) :
  (∀ bytes, malloc_ok env bytes = true) →
  stores b pcm →
  Z.of_nat (length block) <= Pcm.capacity b →
  4 * Z.of_nat (length (pcm ++ block)) <= C.SIZE_MAX →
  2 * Pcm.capacity b <= C.SIZE_MAX →
  ∃ b', Pcm.append env b block = Ok (Some b')
        ∧ stores b' (pcm ++ block)
        ∧ 2 * Pcm.capacity b' <= C.SIZE_MAX
        ∧ Pcm.capacity b'
          = if Pcm.total_samples b + Z.of_nat (length block) >? Pcm.capacity b
            then 2 * Pcm.capacity b else Pcm.capacity b.
Proof.
  intros Hgrant (Htot & Hfit & Hlen & Hcells) Hblock Hrange Hcap.
  rewrite length_app in Hrange.
  unfold Pcm.append, Pcm.grown_capacity, Pcm.must_grow. rewrite Hgrant.
  rewrite andb_false_r.
  assert (Hadd : C.size_add (Pcm.total_samples b) (Z.of_nat (length block))
                 = Pcm.total_samples b + Z.of_nat (length block)).
  { apply size_wrap_small. unfold C.SIZE_MAX in *. lia. }
  rewrite Hadd.
  destruct (Z.gtb_spec (Pcm.total_samples b + Z.of_nat (length block))
                       (Pcm.capacity b)) as [Hgrow|Hstay].
  - (* the buffer is reallocated at twice the capacity *)
    assert (Hmul : C.size_mul (Pcm.capacity b) 2 = 2 * Pcm.capacity b).
    { unfold C.size_mul. rewrite size_wrap_small; lia. }
    rewrite Hmul.
    assert (Hbytes : C.size_mul (2 * Pcm.capacity b) C.sizeof_short / C.sizeof_short
                     = 2 * Pcm.capacity b).
    { unfold C.size_mul, C.sizeof_short.
      rewrite size_wrap_small by (unfold C.SIZE_MAX in *; lia).
      apply Z.div_mul. lia. }
    destruct (copy_block_spec block pcm
      (Pcm.realloc (Pcm.cells b)
         (C.size_mul (2 * Pcm.capacity b) C.sizeof_short) C.sizeof_short))
      as (c' & Hrun & Hlen' & Hcells').
    + rewrite length_realloc, Hbytes. lia.
    + rewrite length_realloc, Hbytes. lia.
    + apply list_eq. intros i.
      destruct (decide (i < length pcm)%nat) as [Hlt|Hge].
      * rewrite lookup_take_lt by done.
        rewrite lookup_realloc by (rewrite ?Hbytes; lia).
        rewrite <- (lookup_take_lt (Pcm.cells b) (length pcm)) by done.
        by rewrite Hcells.
      * rewrite lookup_take_ge by lia.
        rewrite lookup_ge_None_2; [done|]. rewrite length_fmap. lia.
    + rewrite Htot, Hrun. simpl.
      eexists. split; [done|]. unfold stores. simpl.
      rewrite Hlen', length_realloc, Hbytes, length_app.
      repeat split; try done; try lia;
        try (rewrite <- length_app; exact Hcells').
      all: unfold C.SIZE_MAX in *; lia.
  - (* the block fits as it is *)
    destruct (copy_block_spec block pcm (Pcm.cells b)) as (c' & Hrun & Hlen' & Hcells');
      [lia | lia | done |].
    rewrite Htot, Hrun. simpl.
    eexists. split; [done|]. unfold stores. simpl.
    rewrite Hlen', length_app.
    repeat split; try done; try lia; rewrite <- length_app; exact Hcells'.
Qed.

Lemma read_loop_spec (env : Env) (cap0 : Z) (blocks : list (list Z)) :
  (∀ bytes, malloc_ok env bytes = true) →
  Forall (fun block => Z.of_nat (length block) <= cap0) blocks →
  ∀ (b : Pcm.builder) (pcm : list Z),
    stores b pcm →
    cap0 <= Pcm.capacity b →
    2 * Pcm.capacity b <= C.SIZE_MAX →
    4 * Z.of_nat (length (pcm ++ mjoin blocks)) <= C.SIZE_MAX →
    ∃ b', Pcm.read_loop env blocks b = Ok (Some b')
          ∧ stores b' (pcm ++ mjoin blocks)
          ∧ ∃ j, 0 <= j ∧ Pcm.capacity b' = Pcm.capacity b * 2 ^ j.
Proof.
  intros Hgrant Hblocks. induction Hblocks as [|block blocks Hblock _ IH];
    intros b pcm Hst Hcap Hmax Hrange.
  - exists b. simpl. rewrite app_nil_r. split; [done|]. split; [done|].
    exists 0. lia.
  - simpl in Hrange |- *. rewrite app_assoc in Hrange |- *.
    destruct (append_spec env b pcm block) as (b1 & Hrun & Hst1 & Hmax1 & Hcap1);
      [done | done | lia | | done |].
    { rewrite length_app in Hrange. lia. }
    rewrite Hrun. simpl.
    destruct (IH b1 (pcm ++ block)) as (b' & Hloop & Hst' & j & Hj & Hcap');
      [done | | done | done |].
    { rewrite Hcap1. destruct (_ >? _); lia. }
    exists b'. split; [done|]. split; [done|].
    rewrite Hcap', Hcap1.
    destruct (_ >? _).
    + exists (j + 1). split; [lia|]. rewrite Z.pow_add_r by lia. lia.
    + exists j. done.
Qed.

Lemma stores_init (cap : Z) :
  0 <= cap → 2 * cap <= C.SIZE_MAX → stores (Pcm.init cap) [].
Proof.
  intros Hcap Hmax. unfold stores, Pcm.init. simpl.
  repeat split; try done. rewrite length_malloc.
  unfold C.size_mul, C.sizeof_short.
  rewrite size_wrap_small by (unfold C.SIZE_MAX in *; lia).
  rewrite Z.div_mul by lia. done.
Qed.



(** ** The Bluestein set-up *)

(** A counting loop [for (int k = start; k < bound; k++)] against a
    [size_t] bound that an [int] can reach. *)
Lemma count_loop_rule {St : Type} (P : Z → St → Prop)
    (body : Z → St → result St) (start bound : Z) (fuel : nat) (s0 : St) :
  0 <= start <= bound →
  bound <= C.INT_MAX →
  P start s0 →
  (∀ k s, start <= k < bound → P k s → ∃ s', body k s = Ok s' ∧ P (k + 1) s') →
  (Z.to_nat (bound - start) < fuel)%nat →
  ∃ s', c_for fuel (fun k => C.size_of_int k <? bound) (fun k => C.int_add k 1)
               body start s0 = Ok s'
        ∧ P bound s'.
Proof.
  intros Hstart Hbound H0 Hstep Hfuel.
  destruct (c_for_rule
    (fun (n : nat) (i : Z) (s : St) => i = start + Z.of_nat n ∧ P i s)
    (fun k => C.size_of_int k <? bound) (fun k => C.int_add k 1) body
    (Z.to_nat (bound - start))) with
    (fuel := fuel) (k := 0%nat) (i := start) (s := s0)
    as (i' & s' & Hrun & Hi & HP).
  - intros n i s Hn [-> HPi]. split.
    + unfold C.size_of_int.
      rewrite size_wrap_small by (unfold C.SIZE_MAX, C.INT_MAX in *; lia).
      apply Z.ltb_lt. lia.
    + destruct (Hstep (start + Z.of_nat n) s) as (s' & Hb & HP'); [lia | done |].
      exists s'. split; [done|].
      assert (Hw : C.int_add (start + Z.of_nat n) 1 = start + Z.of_nat (S n)).
      { unfold C.int_add.
        rewrite int_wrap_small by (unfold C.INT_MIN, C.INT_MAX in *; lia). lia. }
      rewrite Hw. split; [done|].
      by replace (start + Z.of_nat (S n)) with (start + Z.of_nat n + 1) by lia.
  - intros i s [-> _]. apply Z.ltb_ge. unfold C.size_of_int.
    rewrite size_wrap_small by (unfold C.SIZE_MAX, C.INT_MAX in *; lia). lia.
  - lia.
  - lia.
  - split; [lia | done].
  - exists s'. split; [done|].
    by replace bound with i' by lia.
Qed.

Section BluesteinFacts.
Context {D : Type} `{DoubleLaws D}.

Local Abbreviation Complex := (@Bluestein.Complex D).

Lemma chirp_phase_neg k n :
  Bluestein.chirp_phase k n = dneg (Bluestein.conj_phase k n).
Proof.
  unfold Bluestein.chirp_phase, Bluestein.phase_double, Bluestein.conj_phase.
  by rewrite !dmul_neg_l, ddiv_neg_l, to_float_neg.
Qed.

(** [fromAngle(1, phase)] is exp(i phase). *)
Lemma fromAngle_one theta :
  Bluestein.fromAngle Bluestein.one_f theta = Bluestein.cis theta.
Proof.
  unfold Bluestein.fromAngle, Bluestein.cis, Bluestein.one_f.
  by rewrite !dmul_one_l.
Qed.

(** The value stored in [B[k]] is the conjugate of [chirp[k]]. *)
Lemma conj_of_chirp k n :
  Bluestein.fromAngle Bluestein.one_f (Bluestein.conj_phase k n)
  = Bluestein.conj (Bluestein.cis (Bluestein.chirp_phase k n)).
Proof.
  rewrite fromAngle_one, chirp_phase_neg.
  unfold Bluestein.conj, Bluestein.cis. simpl.
  by rewrite dcos_neg, dsin_neg, dneg_involutive.
Qed.

Lemma nextPowerOfTwo_spec n :
  1 <= n →
  ∃ v, Bluestein.nextPowerOfTwo n = Some v ∧ Bluestein.is_next_power_of_two v n.
Proof.
  intros Hn. unfold Bluestein.nextPowerOfTwo.
  destruct (Z.ltb_spec n 0); [lia|]. destruct (Z.eqb_spec n 0); [lia|].
  eexists. split; [done|].
  pose proof (Z.log2_up_nonneg n) as Hnn.
  split; [|split].
  - exists (Z.log2_up n). done.
  - destruct (decide (n = 1)) as [->|Hne]; [done|].
    apply Z.log2_up_spec. lia.
  - intros j Hj Hle. apply Z.pow_le_mono_r; [lia|].
    apply Z.log2_up_le_pow2; lia.
Qed.

Lemma compute_m_spec n :
  1 <= n <= 536870912 →
  ∃ m, Bluestein.compute_m n = Ok m
       ∧ Bluestein.is_next_power_of_two m (2 * n - 1)
       ∧ 2 * n - 1 <= m <= 1073741824.
Proof.
  intros Hn. unfold Bluestein.compute_m.
  assert (Harg : C.int_of_size (C.size_sub (C.size_mul n 2) 1) = 2 * n - 1).
  { unfold C.int_of_size, C.size_sub, C.size_mul.
    rewrite (size_wrap_small (n * 2)) by (unfold C.SIZE_MAX; lia).
    rewrite size_wrap_small by (unfold C.SIZE_MAX; lia).
    rewrite int_wrap_small by (unfold C.INT_MIN, C.INT_MAX; lia). lia. }
  rewrite Harg.
  destruct (nextPowerOfTwo_spec (2 * n - 1)) as (v & Hv & Hpow); [lia|].
  rewrite Hv.
  assert (Hmax : v <= 1073741824).
  { destruct Hpow as (_ & _ & Hmin). apply (Hmin 30); lia. }
  destruct (Z.leb_spec v C.INT_MAX) as [_|Hbad]; [|unfold C.INT_MAX in Hbad; lia].
  exists v. split; [done|]. split; [done|].
  destruct Hpow as (_ & Hle & _). lia.
Qed.


Lemma length_memset0 (a : list (option Complex)) :
  length (Bluestein.memset0 a) = length a.
Proof. unfold Bluestein.memset0. apply length_fmap. Qed.

Lemma length_malloc_elems (A : Type) n elsize :
  0 < elsize → 0 <= n → n * elsize <= C.SIZE_MAX →
  length (malloc A (C.size_mul n elsize) elsize) = Z.to_nat n.
Proof.
  intros He Hn Hmax. rewrite length_malloc. unfold C.size_mul.
  rewrite size_wrap_small by lia. by rewrite Z.div_mul by lia.
Qed.

Lemma fill_chirp_spec (n : Z) (fuel : nat) (c0 : list (option Complex)) :
  0 <= n <= C.INT_MAX →
  length c0 = Z.to_nat n →
  (Z.to_nat n < fuel)%nat →
  ∃ c, Bluestein.fill_chirp fuel n c0 = Ok c
       ∧ length c = Z.to_nat n
       ∧ ∀ k, 0 <= k < n →
           c !! Z.to_nat k
           = Some (Some (Bluestein.cis (Bluestein.chirp_phase k n))).
Proof.
  intros Hn Hlen Hfuel. unfold Bluestein.fill_chirp.
  destruct (count_loop_rule
    (fun k (c : list (option Complex)) =>
       length c = Z.to_nat n
       ∧ ∀ j, 0 <= j < k →
           c !! Z.to_nat j
           = Some (Some (Bluestein.cis (Bluestein.chirp_phase j n))))
    (fun k c => store c k (Bluestein.fromAngle Bluestein.one_f
                             (Bluestein.chirp_phase k n)))
    0 n fuel c0) as (c & Hrun & Hl & Hc); try lia.
  - split; [done|]. intros j Hj. lia.
  - intros k c Hk [Hl Hc]. rewrite store_in_range by lia.
    eexists. split; [done|]. split; [by rewrite length_insert|].
    intros j Hj. destruct (decide (j = k)) as [->|Hne].
    + rewrite list_lookup_insert_eq by lia. by rewrite fromAngle_one.
    + rewrite list_lookup_insert_ne by lia. apply Hc. lia.
  - exists c. done.
Qed.

Lemma fill_sequences_spec (x : list Complex) (ch a0 b0 : list (option Complex))
    (m : Z) (fuel : nat) :
  let n := Z.of_nat (length x) in
  n <= C.INT_MAX → n <= m →
  (∀ k, 0 <= k < n →
     ch !! Z.to_nat k = Some (Some (Bluestein.cis (Bluestein.chirp_phase k n)))) →
  length a0 = Z.to_nat m → length b0 = Z.to_nat m →
  (length x < fuel)%nat →
  ∃ a b, Bluestein.fill_sequences fuel (Some <$> x) ch n (a0, b0) = Ok (a, b)
    ∧ length a = Z.to_nat m ∧ length b = Z.to_nat m
    ∧ (∀ (k : nat) xk, x !! k = Some xk →
         a !! k = Some (Some (Bluestein.mul xk
                   (Bluestein.cis (Bluestein.chirp_phase (Z.of_nat k) n)))))
    ∧ (∀ k, 0 <= k < n →
         b !! Z.to_nat k
         = Some (Some (Bluestein.conj
                   (Bluestein.cis (Bluestein.chirp_phase k n)))))
    ∧ (∀ k, n <= k → a !! Z.to_nat k = a0 !! Z.to_nat k)
    ∧ (∀ k, n <= k → b !! Z.to_nat k = b0 !! Z.to_nat k).
Proof.
  intros n Hn Hm Hch Ha0 Hb0 Hfuel. unfold Bluestein.fill_sequences.
  destruct (count_loop_rule
    (fun k (ab : list (option Complex) * list (option Complex)) =>
       length (fst ab) = Z.to_nat m ∧ length (snd ab) = Z.to_nat m
       ∧ (∀ (j : nat) xj, Z.of_nat j < k → x !! j = Some xj →
            fst ab !! j = Some (Some (Bluestein.mul xj
                   (Bluestein.cis (Bluestein.chirp_phase (Z.of_nat j) n)))))
       ∧ (∀ j, 0 <= j < k →
            snd ab !! Z.to_nat j
            = Some (Some (Bluestein.conj
                   (Bluestein.cis (Bluestein.chirp_phase j n)))))
       ∧ (∀ j, k <= j → fst ab !! Z.to_nat j = a0 !! Z.to_nat j)
       ∧ (∀ j, k <= j → snd ab !! Z.to_nat j = b0 !! Z.to_nat j))
    (fun k ab =>
       xk ← load (Some <$> x) k;
       c ← load ch k;
       a ← store (fst ab) k (Bluestein.mul xk c);
       b ← store (snd ab) k
             (Bluestein.fromAngle Bluestein.one_f (Bluestein.conj_phase k n));
       Ok (a, b))
    0 n fuel (a0, b0)) as ([a b] & Hrun & Hla & Hlb & Ha & Hb & Har & Hbr);
    try lia.
  - simpl. repeat split; try done; intros; lia.
  - intros k [a b] Hk (Hla & Hlb & Ha & Hb & Har & Hbr). simpl in *.
    destruct (lookup_lt_is_Some_2 x (Z.to_nat k)) as [xk Hxk]; [lia|].
    rewrite (load_initialised x k xk) by (done || lia). simpl.
    rewrite (load_cell ch k _ ltac:(lia) (Hch k ltac:(lia))). simpl.
    rewrite !store_in_range by lia. simpl.
    eexists. split; [done|]. simpl.
    split; [by rewrite length_insert|]. split; [by rewrite length_insert|].
    split; [|split; [|split]].
    + intros j xj Hj Hxj. destruct (decide (j = Z.to_nat k)) as [->|Hne].
      * rewrite list_lookup_insert_eq by lia.
        rewrite Hxk in Hxj. injection Hxj as <-.
        by rewrite Z2Nat.id by lia.
      * rewrite list_lookup_insert_ne by done. eapply Ha; [lia | done].
    + intros j Hj. destruct (decide (j = k)) as [->|Hne].
      * rewrite list_lookup_insert_eq by lia. by rewrite conj_of_chirp.
      * rewrite list_lookup_insert_ne by lia. apply Hb. lia.
    + intros j Hj. rewrite list_lookup_insert_ne by lia. apply Har. lia.
    + intros j Hj. rewrite list_lookup_insert_ne by lia. apply Hbr. lia.
  - simpl in *. exists a, b. split; [done|].
    repeat split; try done.
    intros k xk Hxk. eapply Ha; [|done].
    apply lookup_lt_Some in Hxk. lia.
Qed.

Lemma mirror_spec (n m : Z) (b0 : list (option Complex)) (fuel : nat) :
  1 <= n → 2 * n - 1 <= m <= C.INT_MAX →
  length b0 = Z.to_nat m →
  (∀ k, 0 <= k < n → ∃ bk, b0 !! Z.to_nat k = Some (Some bk)) →
  (Z.to_nat n <= fuel)%nat →
  ∃ b, Bluestein.mirror fuel n m b0 = Ok b
    ∧ length b = Z.to_nat m
    ∧ (∀ k, 0 <= k <= m - n → b !! Z.to_nat k = b0 !! Z.to_nat k)
    ∧ (∀ k bk, 1 <= k < n → b0 !! Z.to_nat k = Some (Some bk) →
         b !! Z.to_nat (m - k) = Some (Some (Bluestein.conj bk))).
Proof.
  intros Hn Hm Hlen Hinit Hfuel. unfold Bluestein.mirror.
  destruct (count_loop_rule
    (fun k (b : list (option Complex)) =>
       length b = Z.to_nat m
       ∧ (∀ j, 0 <= j <= m - k → b !! Z.to_nat j = b0 !! Z.to_nat j)
       ∧ (∀ j bj, 1 <= j < k → b0 !! Z.to_nat j = Some (Some bj) →
            b !! Z.to_nat (m - j) = Some (Some (Bluestein.conj bj))))
    (fun k b =>
       bk ← load b k;
       store b (C.int_sub m k)
         {| Bluestein.re := Bluestein.re bk;
            Bluestein.im := dneg (Bluestein.im bk) |})
    1 n fuel b0) as (b & Hrun & Hl & Hlow & Hhigh); try lia.
  - split; [done|]. split; [done|]. intros j bj Hj. lia.
  - intros k b Hk (Hl & Hlow & Hhigh).
    destruct (Hinit k ltac:(lia)) as [bk Hbk].
    rewrite (load_cell b k bk); [| lia | by rewrite Hlow by lia].
    simpl.
    assert (Hw : C.int_sub m k = m - k).
    { unfold C.int_sub.
      rewrite int_wrap_small by (unfold C.INT_MIN, C.INT_MAX in *; lia). lia. }
    rewrite Hw, store_in_range by lia.
    eexists. split; [done|]. split; [by rewrite length_insert|]. split.
    + intros j Hj. rewrite list_lookup_insert_ne by lia. apply Hlow. lia.
    + intros j bj Hj Hbj. destruct (decide (j = k)) as [->|Hne].
      * rewrite list_lookup_insert_eq by lia.
        rewrite Hbk in Hbj. injection Hbj as <-. done.
      * rewrite list_lookup_insert_ne by lia. apply Hhigh; [lia | done].
  - exists b. done.
Qed.

End BluesteinFacts.

Section BluesteinSetup.
Context {D : Type} `{DoubleLaws D}.


End BluesteinSetup.

(** ** Exact real arithmetic satisfies the laws *)

#[global] Instance real_laws : DoubleLaws R.
Proof.
  split; simpl; intros.
  - apply Rmult_1_l.
  - ring.
  - unfold Rdiv. ring.
  - done.
  - apply Ropp_involutive.
  - apply cos_neg.
  - apply sin_neg.
Qed.

(** ** Precision of the phase *)

(** C8, the code at [bufflen = 3], [k = 1]: in correctly rounded IEEE
    arithmetic the phase [(-PI * k * k) / bufflen] computed in double is
    -0x1.0c152382b64d8p+0, but the value assigned to [float phase] and
    passed on to [cos] and [sin] is -8784530 / 2^23, a different number;
    so is the angle passed for [B[k]]. *)
Theorem chirp_phase_is_rounded_to_float (libm_sqrt libm_cos libm_sin : Q → Q) :
  let ops := Ieee.ieee_ops libm_sqrt libm_cos libm_sin in
  (@Bluestein.phase_double Q ops 1 3 == - (4716158501217496 # 4503599627370496))%Q
  ∧ (@Bluestein.chirp_phase Q ops 1 3 == - (8784530 # 8388608))%Q
  ∧ (@Bluestein.conj_phase Q ops 1 3 == 8784530 # 8388608)%Q
  ∧ ¬ (@Bluestein.chirp_phase Q ops 1 3 == @Bluestein.phase_double Q ops 1 3)%Q.
Proof.
  intros ops. repeat split; try reflexivity.
  intros Heq. vm_compute in Heq. discriminate Heq.
Qed.

(** ** Concrete runs *)

(** Ten mono samples, [hopsize = 3]: three hops over [[0,3)], [[3,6)],
    [[6,9)]; the tenth sample is dropped. *)
Lemma hop_segmentation_ten_by_three :
  ∃ st,
    Hop.hop_loop Sample.silent_fftw 4 (Some <$> Sample.ten) 3 10 (Sample.fresh 3 10)
    = Ok st
    ∧ Hop.hops st
      = [(0, [1; 2; 3]%R); (3, [4; 5; 6]%R); (6, [7; 8; 9]%R)]
    ∧ (length Sample.ten - 3 * 3 = 1)%nat.
Proof.
  destruct (hop_segmentation Sample.silent_fftw Sample.ten 3 4 (Sample.fresh 3 10))
    as (st & Hrun & Hhops & _).
  - unfold C.INT_MAX. lia.
  - unfold C.INT_MAX. simpl. lia.
  - reflexivity.
  - reflexivity.
  - reflexivity.
  - vm_compute. lia.
  - exists st. split; [exact Hrun|]. split; [rewrite Hhops; reflexivity | reflexivity].
Defined.

(** Eight mono samples, [hopsize = 4]: two hops write the cells 0, 1, 2 and
    4, 5, 6, all below 8. *)
Lemma freqArr_writes_eight_by_four :
  ∃ st,
    Hop.hop_loop Sample.silent_fftw 3 (Some <$> Sample.eight) 4 (16 / 2)
                 (Sample.fresh 4 8)
    = Ok st
    ∧ Hop.writes st = [0; 1; 2; 4; 5; 6]
    ∧ Forall (fun idx => 0 <= idx < 16 / 2) (Hop.writes st).
Proof.
  destruct (freqArr_writes_in_bounds Sample.silent_fftw 16 Sample.eight 4 3
              (Sample.fresh 4 8)) as (st & Hrun & Hws & Hin).
  - unfold C.SIZE_MAX. lia.
  - reflexivity.
  - unfold C.INT_MAX. lia.
  - reflexivity.
  - reflexivity.
  - reflexivity.
  - vm_compute. lia.
  - exists st. split; [exact Hrun|]. split; [rewrite Hws; reflexivity | exact Hin].
Defined.

(** C5 as stated fails: with [hopsize = 4] (so that 4 / 2 + 1 < 4) and two
    hops, the second hop writes cells 4, 5, 6 and the first hop's cells
    0, 1, 2 are not written again; cell 2, the first hop's last bin, still
    holds the first hop's magnitude at the end. *)
Lemma second_hop_spares_first_hop :
  4 / 2 + 1 < 4
  ∧ ∃ st,
      Hop.hop_loop Sample.silent_fftw 3 (Some <$> Sample.eight) 4 8 (Sample.fresh 4 8)
      = Ok st
      ∧ length (Hop.hops st) = 2%nat
      ∧ Hop.writes st = [0; 1; 2; 4; 5; 6]
      ∧ ¬ clobbered (Hop.writes st)
      ∧ Hop.freqArr st !! 2%nat
        = Some (Some (Hop.magnitude (Sample.silent_fftw [1; 2; 3; 4]%R 2)))
      ∧ Hop.freqArr st !! 3%nat = Some None.
Proof.
  split; [reflexivity|].
  destruct (hop_loop_spec Sample.silent_fftw Sample.eight 4 3 (Sample.fresh 4 8))
    as (st & Hrun & Hhops & Hws & _ & Hcells).
  - unfold C.INT_MAX. lia.
  - simpl. lia.
  - reflexivity.
  - reflexivity.
  - vm_compute. lia.
  - exists st. split; [exact Hrun|].
    split; [rewrite Hhops; reflexivity|].
    split; [rewrite Hws; reflexivity|].
    split.
    + rewrite Hws. apply NoDup_not_clobbered.
      apply (NoDup_bin_indices 4 2). lia.
    + split.
      * change 2%nat with (Z.to_nat 2). rewrite (Hcells 2) by lia. reflexivity.
      * change 3%nat with (Z.to_nat 3). rewrite (Hcells 3) by lia. reflexivity.
Defined.

Lemma flat_array_eight_by_four :
  ∃ st,
    Hop.hop_loop Sample.silent_fftw 3 (Some <$> Sample.eight) 4 8 (Sample.fresh 4 8)
    = Ok st
    ∧ ¬ clobbered (Hop.writes st)
    ∧ Hop.freqArr st !! Z.to_nat (0 * 4 + 2)
      = Some (Some (Hop.magnitude (Sample.silent_fftw [1; 2; 3; 4]%R 2)))
    ∧ Hop.freqArr st !! Z.to_nat (0 * 4 + 3) = Some None.
Proof.
  destruct (flat_array_hops_disjoint Sample.silent_fftw Sample.eight 4 3
              (Sample.fresh 4 8)) as (st & Hrun & Hnc & Hkept & Hgap).
  - unfold C.INT_MAX. lia.
  - simpl. lia.
  - reflexivity.
  - reflexivity.
  - reflexivity.
  - vm_compute. lia.
  - exists st. split; [exact Hrun|]. split; [exact Hnc|]. split.
    + apply (Hkept 0%nat 2); [vm_compute; lia | change (4 / 2) with 2; lia].
    + transitivity (Hop.freqArr (Sample.fresh 4 8) !! Z.to_nat (Z.of_nat 0 * 4 + 3));
        [|reflexivity].
      apply (Hgap 0%nat 3); [vm_compute; lia | change (4 / 2) with 2; lia].
Defined.

(** A four-sample stereo recording: [main] prints its five lines, runs no
    hop and exits with status 0. *)
Lemma short_track_run :
  Main.main Sample.silent_fftw granting 2 Sample.short_track 3
  = Ok {| Main.trace := [Stdout (SampleRate 4); Stdout (Channels 2);
                         Stdout (Extracted 4); Stdout (Duration 4 2 4);
                         Stdout Elapsed];
          Main.status := 0;
          Main.transformed := [];
          Main.written := [] |}.
Proof.
  apply (short_input_skips_hop_loop Sample.silent_fftw granting Sample.short_track 3
           [Stdout (SampleRate 4); Stdout (Channels 2)]
           {| samples := [Some 1; Some 2; Some 3; Some 4]
                           ++ replicate 12 None;
              num_samples := 4; sample_rate := 4; channels := 2 |}
           [1; 2; 3; 4]).
  - vm_compute. reflexivity.
  - split; reflexivity.
  - reflexivity.
  - reflexivity.
  - reflexivity.
  - reflexivity.
  - reflexivity.
  - vm_compute. lia.
Defined.



(* ================================================================== *)
(** * Part III: further properties of the two programs                 *)
(* ================================================================== *)

(** ** Decoding *)

Lemma initial_capacity_range rate channels :
  0 <= Pcm.initial_capacity rate channels <= C.SIZE_MAX.
Proof.
  unfold Pcm.initial_capacity, C.size_wrap, C.SIZE_MAX.
  pose proof (Z.mod_pos_bound (rate * channels * 2) 18446744073709551616).
  lia.
Qed.

(** X1: when the decoder starts up, every allocation is granted and no
    block is longer than the initial capacity [rate * channels * 2],
    [extract_mp3_samples] returns 0 having printed the rate and the channel
    count, and the [AudioData] it fills in holds all blocks read, in order:
    [num_samples] is their total length and [samples] starts with their
    concatenation. *)
Theorem decode_collects_all_blocks (env : Env) (dec : Decoder) :
  init_ok dec = true → new_ok dec = true → open_ok dec = true →
  getformat_ok dec = true →
  (∀ bytes, malloc_ok env bytes = true) →
  2 * Pcm.initial_capacity (rate dec) (dec_channels dec) <= C.SIZE_MAX →
  4 * Z.of_nat (length (mjoin (reads dec))) <= C.SIZE_MAX →
  Forall (fun block => Z.of_nat (length block)
                       <= Pcm.initial_capacity (rate dec) (dec_channels dec))
         (reads dec) →
  ∃ audio,
    Pcm.extract_mp3_samples env dec
    = Ok ([Stdout (SampleRate (rate dec)); Stdout (Channels (dec_channels dec))],
          Some audio)
    ∧ num_samples audio = Z.of_nat (length (mjoin (reads dec)))
    ∧ take (length (mjoin (reads dec))) (samples audio) = Some <$> mjoin (reads dec)
    ∧ sample_rate audio = rate dec
    ∧ channels audio = dec_channels dec.
Proof.
  intros Hi Hn Ho Hg Hgrant Hcap Hrange Hblocks.
  pose proof (initial_capacity_range (rate dec) (dec_channels dec)) as Hc0.
  unfold Pcm.extract_mp3_samples. rewrite Hi, Hn, Ho, Hg, !Hgrant. simpl.
  destruct (read_loop_spec env (Pcm.initial_capacity (rate dec) (dec_channels dec))
              (reads dec) Hgrant Hblocks
              (Pcm.init (Pcm.initial_capacity (rate dec) (dec_channels dec))) [])
    as (b & Hrun & (Htot & _ & _ & Hcells) & _).
  - apply stores_init; lia.
  - simpl. lia.
  - simpl. exact Hcap.
  - simpl. exact Hrange.
  - simpl in Hrun, Htot, Hcells. rewrite Hrun. simpl.
    eexists. split; [reflexivity|]. simpl. repeat split; done.
Qed.

Lemma decode_stereo_eight :
  ∃ audio,
    Pcm.extract_mp3_samples granting Tracks.stereo_eight
    = Ok ([Stdout (SampleRate 2); Stdout (Channels 2)], Some audio)
    ∧ num_samples audio = 8
    ∧ take 8 (samples audio) = Some <$> [1; -1; 2; -2; 3; -3; 4; -4].
Proof.
  destruct (decode_collects_all_blocks granting Tracks.stereo_eight)
    as (audio & Hrun & Hn & Hcells & _); try reflexivity.
  - vm_compute. discriminate.
  - vm_compute. discriminate.
  - repeat constructor; vm_compute; discriminate.
  - exists audio. split; [exact Hrun|]. split; [exact Hn | exact Hcells].
Defined.

(** X2: what [extract_mp3_samples] reports.  A run that returns 0 has
    printed exactly the rate and the channel count, which are also the
    values stored in [AudioData]; a run that returns -1 has written exactly
    one message to stderr, as its last output, preceded either by nothing
    or by the rate and channel lines. *)
Theorem decode_reports (env : Env) (dec : Decoder) (tr : list event)
    (r : option AudioData) :
  Pcm.extract_mp3_samples env dec = Ok (tr, r) →
  match r with
  | Some audio =>
      tr = [Stdout (SampleRate (rate dec)); Stdout (Channels (dec_channels dec))]
      ∧ sample_rate audio = rate dec ∧ channels audio = dec_channels dec
  | None =>
      ∃ msg, tr = [Stderr msg]
             ∨ tr = [Stdout (SampleRate (rate dec));
                     Stdout (Channels (dec_channels dec)); Stderr msg]
  end.
Proof.
  unfold Pcm.extract_mp3_samples. intros Hrun.
  repeat (match type of Hrun with
          | (if ?c then _ else _) = _ => destruct c
          end;
          [injection Hrun as <- <-; eexists; left; reflexivity|]).
  match type of Hrun with
  | (if ?c then _ else _) = _ => destruct c
  end.
  { injection Hrun as <- <-. eexists. right. reflexivity. }
  destruct (Pcm.read_loop _ _ _) as [[b|]| |]; simpl in Hrun; try discriminate.
  - injection Hrun as <- <-. simpl. done.
  - injection Hrun as <- <-. eexists. right. reflexivity.
Qed.

Lemma decode_reports_unreadable :
  ∃ msg, [Stderr "Unable to open file"] = [Stderr msg]
         ∨ [Stderr "Unable to open file"]
           = [Stdout (SampleRate 0); Stdout (Channels 0); Stderr msg].
Proof.
  exact (decode_reports granting Tracks.unreadable
           [Stderr "Unable to open file"] None eq_refl).
Defined.

(** ** The sample buffer *)

(** X3: a read that delivers no samples leaves the buffer as it is. *)
Theorem append_empty_block (env : Env) (b : Pcm.builder) :
  0 <= Pcm.total_samples b <= Pcm.capacity b →
  Pcm.total_samples b <= C.SIZE_MAX →
  Pcm.append env b [] = Ok (Some b).
Proof.
  intros Hfit Hmax.
  assert (Hadd : C.size_add (Pcm.total_samples b) 0 = Pcm.total_samples b).
  { unfold C.size_add. rewrite Z.add_0_r. apply size_wrap_small. lia. }
  unfold Pcm.append, Pcm.grown_capacity, Pcm.must_grow.
  change (Z.of_nat (length (@nil Z))) with 0. rewrite Hadd.
  destruct (Z.gtb_spec (Pcm.total_samples b) (Pcm.capacity b)) as [Hgt|_]; [lia|].
  simpl. destruct b. done.
Qed.

Lemma append_empty_block_fresh :
  Pcm.append granting (Pcm.init 4) [] = Ok (Some (Pcm.init 4)).
Proof.
  apply (append_empty_block granting (Pcm.init 4)).
  - simpl. lia.
  - unfold C.SIZE_MAX. simpl. lia.
Defined.

Lemma read_loop_capacity (env : Env) (cap0 : Z) (blocks : list (list Z)) :
  (∀ bytes, malloc_ok env bytes = true) →
  Forall (fun block => Z.of_nat (length block) <= cap0) blocks →
  ∀ (b : Pcm.builder) (pcm : list Z),
    stores b pcm →
    cap0 <= Pcm.capacity b <= Z.max cap0 (2 * Pcm.total_samples b) →
    2 * Pcm.capacity b <= C.SIZE_MAX →
    4 * Z.of_nat (length (pcm ++ mjoin blocks)) <= C.SIZE_MAX →
    ∃ b', Pcm.read_loop env blocks b = Ok (Some b')
          ∧ stores b' (pcm ++ mjoin blocks)
          ∧ cap0 <= Pcm.capacity b' <= Z.max cap0 (2 * Pcm.total_samples b').
Proof.
  intros Hgrant Hblocks. induction Hblocks as [|block blocks Hblock _ IH];
    intros b pcm Hst Hcap Hmax Hrange.
  - exists b. simpl. rewrite app_nil_r. done.
  - simpl in Hrange |- *. rewrite app_assoc in Hrange |- *.
    destruct (append_spec env b pcm block) as (b1 & Hrun & Hst1 & Hmax1 & Hcap1);
      [done | done | lia | | done |].
    { rewrite length_app in Hrange. lia. }
    rewrite Hrun. simpl.
    assert (Htot1 : Pcm.total_samples b1
                    = Pcm.total_samples b + Z.of_nat (length block)).
    { destruct Hst as (-> & _). destruct Hst1 as (-> & _).
      rewrite length_app. lia. }
    apply (IH b1 (pcm ++ block)); [done | | done | done].
    rewrite Hcap1, Htot1.
    destruct (Z.gtb_spec (Pcm.total_samples b + Z.of_nat (length block))
                         (Pcm.capacity b)); lia.
Qed.

(** X4: growth is bounded.  Under the conditions of the buffer invariant,
    after any sequence of appends the capacity is at least the initial
    capacity and at most the larger of the initial capacity and twice the
    number of samples stored: the buffer never reserves more than twice
    what it holds, beyond its initial size. *)
Theorem capacity_within_twice_count (env : Env) (cap : Z) (blocks : list (list Z)) :
  (∀ bytes, malloc_ok env bytes = true) →
  0 <= cap →
  2 * cap <= C.SIZE_MAX →
  4 * Z.of_nat (length (mjoin blocks)) <= C.SIZE_MAX →
  Forall (fun block => Z.of_nat (length block) <= cap) blocks →
  ∃ b, Pcm.read_loop env blocks (Pcm.init cap) = Ok (Some b)
       ∧ Pcm.total_samples b = Z.of_nat (length (mjoin blocks))
       ∧ cap <= Pcm.capacity b <= Z.max cap (2 * Pcm.total_samples b).
Proof.
  intros Hgrant Hcap Hmax Hrange Hblocks.
  destruct (read_loop_capacity env cap blocks Hgrant Hblocks (Pcm.init cap) [])
    as (b & Hrun & (Htot & _) & Hbound).
  - by apply stores_init.
  - simpl. lia.
  - simpl. lia.
  - simpl. lia.
  - exists b. simpl in Htot. done.
Qed.

Lemma capacity_after_three_blocks :
  ∃ b, Pcm.read_loop granting [[1; 2; 3]; [4; 5; 6]; [7]] (Pcm.init 4) = Ok (Some b)
       ∧ Pcm.total_samples b = 7
       ∧ 4 <= Pcm.capacity b <= 14.
Proof.
  destruct (capacity_within_twice_count granting 4 [[1; 2; 3]; [4; 5; 6]; [7]])
    as (b & Hrun & Htot & Hcap).
  - reflexivity.
  - lia.
  - unfold C.SIZE_MAX. lia.
  - unfold C.SIZE_MAX. simpl. lia.
  - repeat constructor; simpl; lia.
  - exists b. split; [exact Hrun|]. split; [exact Htot|].
    rewrite Htot in Hcap. simpl in Hcap. lia.
Defined.

(** ** Extraction and the analysis run *)

Section AnalysisFacts.
Context {D : Type} `{DoubleOps D}.
Variable fftw_bin : list D → Z → D * D.

(** X5: the extraction loop keeps every second sample, starting with the
    first, whatever [audio.channels] says: it returns [num_samples / 2]
    cells, cell [i] holding sample [2 i] converted to double, and a trailing
    unpaired sample is ignored. *)
Theorem extract_left_even_positions (audio : AudioData) (pcm : list Z)
    (fuel : nat) (left : list (option D)) :
  Main.holds audio pcm →
  num_samples audio / 2 <= 1073741824 →
  length left = Z.to_nat (num_samples audio / 2) →
  (Z.to_nat (num_samples audio / 2) < fuel)%nat →
  ∃ left',
    Main.extract_left fuel audio left = Ok left'
    ∧ length left' = (length pcm / 2)%nat
    ∧ ∀ i : nat, (i < length pcm / 2)%nat →
        left' !! i = Some (d_of_Z <$> pcm !! (2 * i)%nat).
Proof.
  intros Hholds Hhalf Hlen Hfuel.
  rewrite (extract_left_spec audio pcm fuel left Hholds Hhalf Hlen Hfuel).
  eexists. split; [reflexivity|]. split.
  - by rewrite !length_fmap, length_channel.
  - intros i Hi. rewrite !list_lookup_fmap, lookup_channel by done.
    replace (i * 2 + 0)%nat with (2 * i)%nat by lia.
    destruct (lookup_lt_is_Some_2 pcm (2 * i)%nat) as [v Hv].
    + assert (2 * (length pcm / 2) <= length pcm)%nat; [|lia].
      apply Nat.Div0.mul_div_le.
    + rewrite Hv. reflexivity.
Qed.

(** X7: the whole analysis.  For a decoded input of at most [2^30] frames
    and a positive hopsize, when every request is granted, the run exits
    with status 0 after printing the statistics and the elapsed time; it
    has transformed exactly the windows [[k * hopsize, (k + 1) * hopsize)] of
    the samples at even positions, for [k] below
    [(num_samples / 2) / hopsize], and written [hopsize / 2 + 1] magnitudes
    at [k * hopsize] onwards for each.  [main] is this run at
    [hopsize = 159840]. *)
Theorem analyse_transforms_every_hop (env : Env) (dec : Decoder) (hopsize : Z)
    (fuel : nat) (tr : list event) (audio : AudioData) (pcm : list Z) :
  Pcm.extract_mp3_samples env dec = Ok (tr, Some audio) →
  Main.holds audio pcm →
  0 < hopsize <= C.INT_MAX →
  num_samples audio / 2 <= 1073741824 →
  (∀ bytes, malloc_ok env bytes = true) →
  plan_ok env = true →
  clock_start_ok env = true →
  clock_end_ok env = true →
  (Z.to_nat (num_samples audio / 2) < fuel)%nat →
  Main.analyse fftw_bin env dec hopsize fuel
  = Ok {| Main.trace :=
            tr ++ [Stdout (Extracted (num_samples audio));
                   Stdout (Duration (num_samples audio) (channels audio)
                                    (sample_rate audio));
                   Stdout Elapsed];
          Main.status := 0;
          Main.transformed :=
            Layout.windows (d_of_Z <$> Main.channel 2 0 pcm) hopsize
              (Z.to_nat (num_samples audio / 2 / hopsize));
          Main.written :=
            Layout.bin_indices hopsize
              (Z.to_nat (num_samples audio / 2 / hopsize)) |}.
Proof.
  intros Hdec Hholds Hh Hhalf Hmalloc Hplan Hc1 Hc2 Hfuel.
  set (mono := d_of_Z <$> Main.channel 2 0 pcm).
  set (half := num_samples audio / 2) in *.
  set (n := Z.to_nat (half / hopsize)).
  assert (Hhalf0 : 0 <= half).
  { apply Z.div_pos; [|lia]. destruct Hholds as [-> _]. lia. }
  assert (Hbytes : C.size_mul half C.sizeof_double / C.sizeof_double = half).
  { unfold C.size_mul, C.sizeof_double.
    rewrite size_wrap_small by (unfold C.SIZE_MAX; lia).
    apply Z.div_mul. lia. }
  assert (Hin : C.size_mul (C.size_of_int hopsize) C.sizeof_double / C.sizeof_double
                = hopsize).
  { unfold C.size_mul, C.size_of_int, C.sizeof_double.
    rewrite (size_wrap_small hopsize) by (unfold C.SIZE_MAX, C.INT_MAX in *; lia).
    rewrite size_wrap_small by (unfold C.SIZE_MAX, C.INT_MAX in *; lia).
    apply Z.div_mul. lia. }
  unfold Main.analyse. rewrite Hdec. cbn [mbind result_bind snd fst]. fold half.
  rewrite !Hmalloc, Hplan, Hc1, Hc2. cbn [negb].
  rewrite (extract_left_spec audio pcm fuel); [| done | fold half; lia | | done].
  2:{ rewrite length_malloc. fold half. by rewrite Hbytes. }
  fold mono. cbn [mbind result_bind].
  assert (Hmono : Z.of_nat (length mono) = half).
  { unfold mono. rewrite length_fmap, length_channel.
    destruct Hholds as [Hn _]. unfold half. rewrite Hn.
    by rewrite Nat2Z.inj_div. }
  rewrite <- Hmono.
  destruct (hop_loop_spec fftw_bin mono hopsize fuel
    {| Hop.in_buf := malloc D (C.size_mul (C.size_of_int hopsize) C.sizeof_double)
                       C.sizeof_double;
       Hop.freqArr := malloc D (C.size_mul (Z.of_nat (length mono)) C.sizeof_double)
                        C.sizeof_double;
       Hop.hops := []; Hop.writes := [] |})
    as (st & Hrun & Hhops & Hws & _).
  - done.
  - lia.
  - cbn [Hop.in_buf]. by rewrite length_malloc, Hin.
  - cbn [Hop.freqArr]. rewrite length_malloc, Hmono, Hbytes. lia.
  - unfold Layout.hop_count. rewrite Hmono.
    rewrite Z.min_l by (unfold C.INT_MAX; lia).
    assert (half / hopsize <= half); [|lia].
    apply Z.div_le_upper_bound; nia.
  - assert (Hcount : Layout.hop_count (Z.of_nat (length mono)) hopsize = n).
    { unfold Layout.hop_count, n. rewrite Hmono.
      by rewrite Z.min_l by (unfold C.INT_MAX; lia). }
    rewrite Hcount in Hhops, Hws. cbn [Hop.hops Hop.writes app] in Hhops, Hws.
    rewrite Hrun. cbn [mbind result_bind]. rewrite Hhops, Hws.
    rewrite <- app_assoc. done.
Qed.

(** How a run of [main] can end: with status 0 after the full output, or
    with status 1 after the usage line or a message on stderr. *)
Lemma main_outcome (env : Env) (argc : Z) (dec : Decoder) (fuel : nat)
    (r : @Main.run D) :
  Main.main fftw_bin env argc dec fuel = Ok r →
  (Main.status r = 0
   ∧ argc = 2 ∧ plan_ok env = true
   ∧ clock_start_ok env = true ∧ clock_end_ok env = true
   ∧ ∃ tr audio,
       Pcm.extract_mp3_samples env dec = Ok (tr, Some audio)
       ∧ Main.trace r
         = tr ++ [Stdout (Extracted (num_samples audio));
                  Stdout (Duration (num_samples audio) (channels audio)
                                   (sample_rate audio));
                  Stdout Elapsed])
  ∨ (Main.status r = 1
     ∧ ∃ tr e, Main.trace r = tr ++ [e]
               ∧ (e = Stdout Usage ∨ ∃ msg, e = Stderr msg)).
Proof.
  unfold Main.main, Main.analyse, Main.stop, Main.EXIT_FAILURE. intros Hrun.
  destruct (Z.eqb_spec argc 2) as [->|Hne]; cbn [negb] in Hrun.
  2:{ injection Hrun as <-. right. split; [done|]. exists [], (Stdout Usage). auto. }
  destruct (Pcm.extract_mp3_samples env dec) as [[tr [audio|]]| |] eqn:Hdec;
    cbn [mbind result_bind snd fst] in Hrun; try discriminate.
  2:{ injection Hrun as <-. right. split; [done|]. do 2 eexists. split; [done|]. eauto. }
  assert (Hfail : ∀ (tr0 : list event) (msg : string) (hs : list (Z * list D))
                    (ws : list Z),
    Ok {| Main.trace := tr0 ++ [Stderr msg]; Main.status := 1;
          Main.transformed := hs; Main.written := ws |} = Ok r →
    Main.status r = 1
    ∧ ∃ tr e, Main.trace r = tr ++ [e]
              ∧ (e = Stdout Usage ∨ ∃ msg, e = Stderr msg)).
  { intros tr0 msg hs ws Heq. injection Heq as <-. split; [done|].
    exists tr0, (Stderr msg). eauto. }
  repeat match type of Hrun with
         | (if negb ?c then _ else _) = _ =>
             destruct c eqn:?; cbn [negb] in Hrun;
             [|right; eapply Hfail; exact Hrun]
         end.
  destruct (Main.extract_left _ _ _) as [left| |]; cbn [mbind result_bind] in Hrun;
    try discriminate.
  repeat match type of Hrun with
         | (if negb ?c then _ else _) = _ =>
             destruct c eqn:?; cbn [negb] in Hrun;
             [|right; eapply Hfail; exact Hrun]
         end.
  destruct (Hop.hop_loop _ _ _ _ _ _) as [st| |]; cbn [mbind result_bind] in Hrun;
    try discriminate.
  repeat match type of Hrun with
         | (if negb ?c then _ else _) = _ =>
             destruct c eqn:?; cbn [negb] in Hrun;
             [|right; eapply Hfail; exact Hrun]
         end.
  injection Hrun as <-. left. cbn [Main.status Main.trace].
  repeat split; try done. exists tr, audio. split; [done|].
  by rewrite <- app_assoc.
Qed.


(** X14: one transform, [hopsize / 2 + 1] magnitudes.  The hop loop returns
    after [min(n, INT_MAX) / hopsize] transforms over [n] mono samples and
    has then written exactly [hopsize / 2 + 1] magnitudes for each of
    them. *)
Theorem magnitudes_per_hop (mono : list D) (hopsize : Z) (fuel : nat)
    (st0 : Hop.state) :
  0 < hopsize <= C.INT_MAX →
  Z.of_nat (length mono) <= 9223372036854775807 →
  length (Hop.in_buf st0) = Z.to_nat hopsize →
  length (Hop.freqArr st0) = length mono →
  Hop.hops st0 = [] →
  Hop.writes st0 = [] →
  let n := Layout.hop_count (Z.of_nat (length mono)) hopsize in
  (n < fuel)%nat →
  ∃ st,
    Hop.hop_loop fftw_bin fuel (Some <$> mono) hopsize (Z.of_nat (length mono)) st0
    = Ok st
    ∧ length (Hop.hops st) = n
    ∧ length (Hop.writes st) = (n * Z.to_nat (hopsize / 2 + 1))%nat.
Proof.
  intros Hh Hlen Hin Hfreq Hhops Hws n Hfuel.
  destruct (hop_loop_spec fftw_bin mono hopsize fuel st0)
    as (st & Hrun & Hh' & Hw' & _); try done.
  fold n in Hh', Hw'. rewrite Hhops in Hh'. rewrite Hws in Hw'.
  simpl in Hh', Hw'.
  exists st. split; [done|]. rewrite Hh', Hw'. split; [apply length_windows|].
  clear. induction n as [|n IH]; [done|].
  rewrite bin_indices_snoc, length_app, IH.
  unfold Layout.bins_at. rewrite length_fmap, length_seq. lia.
Qed.

End AnalysisFacts.

(** X9: the two programs agree.  Whenever the library-free [main] fails
    (wrong argument count, or decoding failed), the FFTW [main] fails in the
    same way: same output, status 1, no transform; and whenever the FFTW
    [main] exits with status 0, the library-free [main] exits with status 0
    too, and the FFTW program's output is the library-free program's output
    followed by the elapsed-time line. *)
Theorem mains_agree {D : Type} `{DoubleOps D} (fftw_bin : list D → Z → D * D)
    (env : Env) (argc : Z) (dec : Decoder) (fuel : nat)
    (out : list event) (code : Z) :
  NoLibrary.main env argc dec = Ok (out, code) →
  (code = 1 →
   Main.main fftw_bin env argc dec fuel
   = Ok {| Main.trace := out; Main.status := 1;
           Main.transformed := []; Main.written := [] |})
  ∧ (∀ r, Main.main fftw_bin env argc dec fuel = Ok r → Main.status r = 0 →
          code = 0 ∧ Main.trace r = out ++ [Stdout Elapsed]).
Proof.
  intros Hno. split.
  - intros ->. revert Hno.
    unfold NoLibrary.main, Main.main, Main.analyse, Main.stop.
    destruct (negb (argc =? 2)); [by intros [= <-]|].
    destruct (Pcm.extract_mp3_samples env dec) as [[tr [audio|]]| |];
      cbn [mbind result_bind snd fst]; try discriminate.
    by intros [= <-].
  - intros r Hrun Hzero.
    destruct (main_outcome fftw_bin env argc dec fuel r Hrun)
      as [(_ & -> & _ & _ & _ & tr & audio & Hdec & Htrace)|(Hone & _)]; [|lia].
    revert Hno. unfold NoLibrary.main. rewrite Hdec. simpl.
    intros [= <- <-]. split; [done|].
    rewrite Htrace, <- app_assoc. done.
Qed.

(** ** The Bluestein helpers *)

(** X10: [nextPowerOfTwo] on a positive argument returns a power of two
    that is at least the argument and less than twice the argument, and it
    returns a power of two unchanged. *)
Theorem nextPowerOfTwo_bounds (n : Z) :
  1 <= n →
  ∃ v, Bluestein.nextPowerOfTwo n = Some v
       ∧ (∃ j, 0 <= j ∧ v = 2 ^ j)
       ∧ n <= v < 2 * n
       ∧ ((∃ j, 0 <= j ∧ n = 2 ^ j) → v = n).
Proof.
  intros Hn. unfold Bluestein.nextPowerOfTwo.
  destruct (Z.ltb_spec n 0); [lia|]. destruct (Z.eqb_spec n 0); [lia|].
  eexists. split; [done|].
  pose proof (Z.log2_up_nonneg n) as Hnn.
  split; [by exists (Z.log2_up n)|]. split.
  - destruct (decide (n = 1)) as [->|Hne].
    { replace (2 ^ Z.log2_up 1) with 1 by reflexivity. lia. }
    pose proof (Z.log2_up_spec n ltac:(lia)) as [Hlo Hhi].
    split; [done|].
    replace (Z.log2_up n) with (Z.succ (Z.pred (Z.log2_up n))) by lia.
    rewrite Z.pow_succ_r; [lia|].
    assert (0 < Z.log2_up n); [|lia]. apply Z.log2_up_pos. lia.
  - intros (j & Hj & ->). by rewrite Z.log2_up_pow2.
Qed.

Lemma nextPowerOfTwo_of_five :
  ∃ v, Bluestein.nextPowerOfTwo 5 = Some v ∧ 5 <= v < 2 * 5.
Proof.
  destruct (nextPowerOfTwo_bounds 5) as (v & Hv & _ & Hb & _); [lia|].
  exists v. split; [exact Hv | exact Hb].
Defined.

(** Outside [[1, 2^29]] the value of [m] is not defined: the argument
    [bufflen * 2 - 1] is negative as an [int], or the power of two does not
    fit one. *)
Lemma compute_m_undefined (n : Z) :
  0 <= n <= C.INT_MAX → ¬ (1 <= n <= 536870912) → Bluestein.compute_m n = Fault.
Proof.
  intros Hn Hout. unfold Bluestein.compute_m, C.INT_MAX in *.
  destruct (decide (n = 0)) as [->|Hpos]; [reflexivity|].
  assert (Hsz : C.size_sub (C.size_mul n 2) 1 = 2 * n - 1).
  { unfold C.size_sub, C.size_mul.
    rewrite (size_wrap_small (n * 2)) by (unfold C.SIZE_MAX; lia).
    rewrite size_wrap_small by (unfold C.SIZE_MAX; lia). lia. }
  rewrite Hsz. unfold C.int_of_size.
  destruct (Z.le_gt_cases (2 * n - 1) 2147483647) as [Hfit|Hneg].
  - rewrite int_wrap_small by (unfold C.INT_MIN, C.INT_MAX; lia).
    destruct (nextPowerOfTwo_spec (2 * n - 1)) as (v & -> & (j & Hj & ->) & Hle & _);
      [lia|].
    destruct (Z.leb_spec (2 ^ j) 2147483647) as [Hsmall|_]; [|done].
    exfalso.
    assert (j <= 30).
    { destruct (Z.le_gt_cases j 30) as [|Hj31]; [done|].
      pose proof (Z.pow_le_mono_r 2 31 j ltac:(lia) ltac:(lia)) as Hp.
      change (2 ^ 31) with 2147483648 in Hp. lia. }
    pose proof (Z.pow_le_mono_r 2 j 30 ltac:(lia) ltac:(lia)) as Hp.
    change (2 ^ 30) with 1073741824 in Hp. lia.
  - assert (Hw : C.int_wrap (2 * n - 1) = 2 * n - 1 - 4294967296).
    { unfold C.int_wrap.
      replace ((2 * n - 1 + 2147483648) mod 4294967296)
        with (2 * n - 1 - 2147483648); [lia|].
      apply (Z.mod_unique_pos _ _ 1); lia. }
    rewrite Hw. unfold Bluestein.nextPowerOfTwo.
    destruct (Z.ltb_spec (2 * n - 1 - 4294967296) 0); [done | lia].
Qed.

Section BluesteinRuns.
Context {D : Type} `{DoubleLaws D}.

(** The set-up on a buffer of [N] points, [1 <= N <= 2^29]: what the
    function leaves in [chirp] and in [B]. *)
Lemma bluestein_run (x : list (@Bluestein.Complex D)) (fuel : nat) :
  1 <= Z.of_nat (length x) <= 536870912 →
  (length x < fuel)%nat →
  ∃ st,
    Bluestein.bluesteinFFT fuel (Some <$> x) (Z.of_nat (length x)) = Ok st
    ∧ 2 * Z.of_nat (length x) - 1 <= Bluestein.m st
    ∧ (∀ k, 0 <= k < Z.of_nat (length x) →
         Bluestein.chirp st !! Z.to_nat k
         = Some (Some (Bluestein.cis
                         (Bluestein.chirp_phase k (Z.of_nat (length x))))))
    ∧ (∀ k, 1 <= k < Z.of_nat (length x) →
         Bluestein.B st !! Z.to_nat (Bluestein.m st - k)
         = Some (Some (Bluestein.conj (Bluestein.conj
                   (Bluestein.cis
                      (Bluestein.chirp_phase k (Z.of_nat (length x)))))))).
Proof.
  intros HN Hfuel. set (N := Z.of_nat (length x)) in *.
  unfold Bluestein.bluesteinFFT.
  destruct (fill_chirp_spec N fuel
    (malloc Bluestein.Complex (C.size_mul N C.sizeof_Complex) C.sizeof_Complex))
    as (ch & Hch & Hlch & Hchirp).
  { unfold C.INT_MAX. lia. }
  { apply length_malloc_elems; unfold C.sizeof_Complex, C.SIZE_MAX; lia. }
  { lia. }
  rewrite Hch. simpl.
  destruct (compute_m_spec N HN) as (m & Hm & Hpow & Hmlo & Hmhi).
  rewrite Hm. simpl.
  assert (Hsz : C.size_of_int m = m).
  { apply size_wrap_small. unfold C.SIZE_MAX. lia. }
  rewrite Hsz.
  assert (Hlm : length (Bluestein.memset0
            (malloc Bluestein.Complex (C.size_mul m C.sizeof_Complex)
                    C.sizeof_Complex)) = Z.to_nat m).
  { rewrite length_memset0.
    apply length_malloc_elems; unfold C.sizeof_Complex, C.SIZE_MAX; lia. }
  set (z := Bluestein.memset0 _) in *.
  destruct (fill_sequences_spec x ch z z m fuel)
    as (a & b & Hab & Hla & Hlb & Ha & Hb & Har & Hbr);
    try done; try (fold N; unfold C.INT_MAX; lia).
  fold N in Hab, Ha, Hb, Har, Hbr. rewrite Hab. simpl.
  destruct (mirror_spec N m b fuel) as (b' & Hmir & Hlb' & Hlow & Hhigh);
    try done; try (unfold C.INT_MAX; lia).
  { intros k Hk. eexists. by apply Hb. }
  rewrite Hmir. simpl.
  eexists. split; [done|]. simpl. split; [lia|]. split; [done|].
  intros k Hk. apply Hhigh; [done|]. apply Hb. lia.
Qed.

(** X11: the lengths the set-up can handle.  For a buffer of [N] points with
    [N] at most [INT_MAX], [bluesteinFFT] returns (given fuel) exactly when
    [1 <= N <= 2^29]: for an empty buffer and for more than [2^29] points
    there is no defined value for [int m]. *)
Theorem bluestein_defined_lengths (x : list (@Bluestein.Complex D)) :
  Z.of_nat (length x) <= C.INT_MAX →
  (∃ fuel st, Bluestein.bluesteinFFT fuel (Some <$> x) (Z.of_nat (length x)) = Ok st)
  ↔ 1 <= Z.of_nat (length x) <= 536870912.
Proof.
  intros Hmax. split.
  - intros (fuel & st & Hrun).
    destruct (decide (1 <= Z.of_nat (length x) <= 536870912)) as [|Hout]; [done|].
    exfalso. revert Hrun. unfold Bluestein.bluesteinFFT.
    destruct (Bluestein.fill_chirp _ _ _) as [ch| |]; simpl; try discriminate.
    rewrite compute_m_undefined by (done || lia). discriminate.
  - intros HN. exists (S (length x)).
    destruct (bluestein_run x (S (length x)) HN ltac:(lia)) as (st & Hrun & _).
    by exists st.
Qed.

(** X12: the mirrored half of [B] holds the chirp itself.  For
    [k] in [[1, N)] the loop stores the conjugate of [B[k]], and [B[k]] is
    already the conjugate of [chirp[k]], so [B[M - k] = chirp[k]]. *)
Theorem mirrored_half_is_chirp (x : list (@Bluestein.Complex D)) (fuel : nat) :
  1 <= Z.of_nat (length x) <= 536870912 →
  (length x < fuel)%nat →
  ∃ st,
    Bluestein.bluesteinFFT fuel (Some <$> x) (Z.of_nat (length x)) = Ok st
    ∧ ∀ k, 1 <= k < Z.of_nat (length x) →
        Bluestein.B st !! Z.to_nat (Bluestein.m st - k)
        = Bluestein.chirp st !! Z.to_nat k.
Proof.
  intros HN Hfuel.
  destruct (bluestein_run x fuel HN Hfuel) as (st & Hrun & _ & Hchirp & Hmir).
  exists st. split; [done|]. intros k Hk.
  rewrite Hmir, Hchirp by lia. do 2 f_equal.
  unfold Bluestein.conj, Bluestein.cis. simpl. by rewrite dneg_involutive.
Qed.

End BluesteinRuns.

(** X13: complex addition and multiplication as written are commutative
    whenever the underlying double addition and multiplication are, as
    they are in IEEE arithmetic. *)
Theorem complex_add_mul_commute {D : Type} `{DoubleOps D}
    (a b : @Bluestein.Complex D) :
  (∀ u v, dadd u v = dadd v u) →
  (∀ u v, dmul u v = dmul v u) →
  Bluestein.add a b = Bluestein.add b a ∧ Bluestein.mul a b = Bluestein.mul b a.
Proof.
  intros Hadd Hmul. unfold Bluestein.add, Bluestein.mul. split.
  - f_equal; apply Hadd.
  - f_equal.
    + by rewrite (Hmul (Bluestein.re a)), (Hmul (Bluestein.im a)).
    + rewrite (Hmul (Bluestein.re a)), (Hmul (Bluestein.im a)). apply Hadd.
Qed.

Lemma ieee_dadd_comm (u v : Q) : Ieee.double (u + v)%Q = Ieee.double (v + u)%Q.
Proof.
  f_equal. unfold Qplus. f_equal; [lia | apply Pos.mul_comm].
Qed.

Lemma ieee_dmul_comm (u v : Q) : Ieee.double (u * v)%Q = Ieee.double (v * u)%Q.
Proof.
  f_equal. unfold Qmult. f_equal; [lia | apply Pos.mul_comm].
Qed.

(** ** Concrete runs of the further properties *)

Lemma extract_left_of_five :
  ∃ left',
    Main.extract_left 3 Tracks.five (malloc R 16 8) = Ok left'
    ∧ length left' = 2%nat
    ∧ left' !! 0%nat = Some (Some 10%R)
    ∧ left' !! 1%nat = Some (Some 30%R).
Proof.
  destruct (extract_left_even_positions Tracks.five [10; 20; 30; 40; 50] 3
              (malloc R 16 8)) as (left' & Hrun & Hlen & Hcells).
  - split; reflexivity.
  - vm_compute. discriminate.
  - reflexivity.
  - vm_compute. lia.
  - exists left'. split; [exact Hrun|]. split; [exact Hlen|]. split.
    + apply (Hcells 0%nat). simpl. lia.
    + apply (Hcells 1%nat). simpl. lia.
Defined.

Lemma extract_left_of_five_in_range : 5 / 2 <= 1073741824.
Proof.
  apply (extract_left_int_range (D := R) 3 Tracks.five (malloc R 16 8)
           [Some 10%R; Some 30%R]).
  - unfold C.SIZE_MAX. simpl. lia.
  - reflexivity.
Defined.

Lemma analyse_stereo_eight :
  Main.analyse Sample.silent_fftw granting Tracks.stereo_eight 2 5
  = Ok {| Main.trace := [Stdout (SampleRate 2); Stdout (Channels 2);
                         Stdout (Extracted 8); Stdout (Duration 8 2 2);
                         Stdout Elapsed];
          Main.status := 0;
          Main.transformed := [(0, [1; 2]%R); (2, [3; 4]%R)];
          Main.written := [0; 1; 2; 3] |}.
Proof.
  etransitivity.
  { apply (analyse_transforms_every_hop Sample.silent_fftw granting
             Tracks.stereo_eight 2 5
             [Stdout (SampleRate 2); Stdout (Channels 2)]
             {| samples := Some <$> [1; -1; 2; -2; 3; -3; 4; -4];
                num_samples := 8; sample_rate := 2; channels := 2 |}
             [1; -1; 2; -2; 3; -3; 4; -4]).
    - reflexivity.
    - split; reflexivity.
    - unfold C.INT_MAX. lia.
    - vm_compute. discriminate.
    - reflexivity.
    - reflexivity.
    - reflexivity.
    - reflexivity.
    - vm_compute. lia. }
  reflexivity.
Defined.


Lemma mains_agree_on_usage :
  Main.main Sample.silent_fftw granting 1 Sample.short_track 3
  = Ok {| Main.trace := [Stdout Usage]; Main.status := 1;
          Main.transformed := []; Main.written := [] |}.
Proof.
  exact (proj1 (mains_agree Sample.silent_fftw granting 1 Sample.short_track 3
                  [Stdout Usage] 1 eq_refl) eq_refl).
Defined.

Lemma magnitudes_eight_by_four :
  ∃ st,
    Hop.hop_loop Sample.silent_fftw 3 (Some <$> Sample.eight) 4 8 (Sample.fresh 4 8)
    = Ok st
    ∧ length (Hop.hops st) = 2%nat
    ∧ length (Hop.writes st) = 6%nat.
Proof.
  destruct (magnitudes_per_hop Sample.silent_fftw Sample.eight 4 3 (Sample.fresh 4 8))
    as (st & Hrun & Hhops & Hws).
  - unfold C.INT_MAX. lia.
  - simpl. lia.
  - reflexivity.
  - reflexivity.
  - reflexivity.
  - reflexivity.
  - vm_compute. lia.
  - exists st. split; [exact Hrun|]. split; [exact Hhops | exact Hws].
Defined.

Lemma mirrored_half_two_points :
  ∃ st,
    Bluestein.bluesteinFFT 3 (Some <$> Sample.two_points) 2 = Ok st
    ∧ Bluestein.B st !! Z.to_nat (Bluestein.m st - 1)
      = Bluestein.chirp st !! Z.to_nat 1.
Proof.
  destruct (mirrored_half_is_chirp Sample.two_points 3) as (st & Hrun & Hmir).
  - simpl. lia.
  - simpl. lia.
  - exists st. split; [exact Hrun|]. apply Hmir. simpl. lia.
Defined.

Lemma bluestein_defined_for_two_points :
  (∃ fuel st, Bluestein.bluesteinFFT fuel (Some <$> Sample.two_points) 2 = Ok st)
  ↔ 1 <= 2 <= 536870912.
Proof.
  apply (bluestein_defined_lengths Sample.two_points).
  unfold C.INT_MAX. simpl. lia.
Defined.

Lemma complex_commute_rounded :
  let ops := Ieee.ieee_ops (fun q => q) (fun q => q) (fun q => q) in
  let a := {| Bluestein.re := (1 # 3)%Q; Bluestein.im := (1 # 5)%Q |} in
  let b := {| Bluestein.re := (1 # 7)%Q; Bluestein.im := 2%Q |} in
  @Bluestein.add Q ops a b = @Bluestein.add Q ops b a
  ∧ @Bluestein.mul Q ops a b = @Bluestein.mul Q ops b a.
Proof.
  intros ops a b.
  apply (@complex_add_mul_commute Q ops a b).
  - intros u v. apply ieee_dadd_comm.
  - intros u v. apply ieee_dmul_comm.
Defined.
